(** * Doggy daycare: the status-overlay engine

    A shallow embedding of the client logic of the dog directory:
    - [DogStatusContext.js]: the overlay store ([changedDogs], [updateStatus]);
    - [app/dogs/page.js]: the list view ([useDebounce], [fetchDogs],
      [filteredDogs], the status shown per card);
    - [app/dogs/[id]/page.js]: the detail view ([setupNavigation],
      [toggleStatus], the status shown on the page).

    React state is modelled by explicit state passing: a handler takes the
    state the render closed over and returns the state of the next render. *)

From Stdlib Require Import ZArith Ascii String.
From stdpp Require Import base option list gmap strings pretty.

Local Open Scope string_scope.

(** ** JavaScript values read from the fetched JSON *)

(** A field of a fetched record.  [JUndefined] is a field that is absent.
    Numbers are the integral ones; [JObj] stands for any object or array. *)
Inductive jsval : Type :=
  | JUndefined
  | JNull
  | JBool (b : bool)
  | JNum (n : Z)
  | JStr (s : string)
  | JObj.

(** [ToBoolean]: what [v ? a : b] and [!v] test. *)
Definition truthy (v : jsval) : bool :=
  match v with
  | JUndefined | JNull => false
  | JBool b => b
  | JNum n => negb (n =? 0)%Z
  | JStr s => negb (String.eqb s "")
  | JObj => true
  end.

(** [v === true]. *)
Definition strict_eq_true (v : jsval) : bool :=
  match v with
  | JBool true => true
  | _ => false
  end.

(** The [present] field has the type the endpoint documents (a boolean) or is
    absent. *)
Definition boolean_or_missing (v : jsval) : Prop :=
  match v with
  | JBool _ | JUndefined => True
  | _ => False
  end.

(** ** The shared status constants ([STATUS] in DogStatusContext.js) *)

Module STATUS.
Definition PRESENT : string := "present".
Definition ABSENT : string := "absent".
Definition ALL : string := "all".
End STATUS.

(** ** Dog records

    Only the fields the engine reads are kept.  [chipNumber] and [name] are
    strings when they are there; [None] is an absent field ([undefined]).
    [present] is kept as a raw value because the views test it in two ways
    ([=== true] and plain truthiness). *)
Record Dog : Type := mkDog {
  chipNumber : option string;
  name : option string;
  present : jsval
}.

(** [!chipNumber] on an identifier that is a string or [undefined]. *)
Definition falsy_id (chip : option string) : bool :=
  match chip with
  | None => true
  | Some s => String.eqb s ""
  end.

(** The property key an identifier is converted to by [k in obj] and
    [obj[k]]: [undefined] becomes the string "undefined". *)
Definition prop_key (chip : option string) : string :=
  match chip with
  | Some s => s
  | None => "undefined"
  end.

(** ** The overlay map ([changedDogs])

    [changedDogs] is a plain object: it starts as the literal [{}] and every
    update builds [{...prev, [chipNumber]: newStatus}].  Its own properties are
    a finite map from keys to status strings; the spread copies them and the
    computed key defines an own property, also for the key "__proto__".  Like
    every plain object it inherits the properties of [Object.prototype]. *)
Abbreviation overlay := (gmap string string).

(** The names of the properties of [Object.prototype]. *)
Definition object_prototype_keys : list string :=
  [ "constructor"; "hasOwnProperty"; "isPrototypeOf"; "propertyIsEnumerable";
    "toLocaleString"; "toString"; "valueOf"; "__proto__";
    "__defineGetter__"; "__defineSetter__"; "__lookupGetter__";
    "__lookupSetter__" ].

Definition inherited (k : string) : bool :=
  existsb (String.eqb k) object_prototype_keys.

(** What reading a property of [changedDogs] gives: [undefined], a stored
    status string, or the function (for "__proto__", the object) that
    [Object.prototype] holds under an inherited key. *)
Inductive propval : Type :=
  | PUndefined
  | PStr (s : string)
  | PInherited (k : string).

Coercion PStr : string >-> propval.

(** [k in changedDogs]: an own property, or an inherited one. *)
Definition js_in (k : string) (changedDogs : overlay) : bool :=
  bool_decide (is_Some (changedDogs !! k)) || inherited k.

(** [changedDogs[k]]: the own property shadows the inherited one. *)
Definition js_get (k : string) (changedDogs : overlay) : propval :=
  match changedDogs !! k with
  | Some s => PStr s
  | None => if inherited k then PInherited k else PUndefined
  end.

(** [v === s] for a string [s]. *)
Definition strict_eq_str (v : propval) (s : string) : bool :=
  match v with
  | PStr x => String.eqb x s
  | PUndefined | PInherited _ => false
  end.

(** [k in changedDogs ? changedDogs[k] : dflt]. *)
Definition overlay_or (changedDogs : overlay) (chip : option string)
    (dflt : string) : propval :=
  if js_in (prop_key chip) changedDogs
  then js_get (prop_key chip) changedDogs
  else PStr dflt.

(** ** Effective status, as each place in the source computes it *)

Module DogList.
(** page.js, the [status] constant inside [filteredDogs.map]. *)
Definition status (changedDogs : overlay) (dog : Dog) : propval :=
  overlay_or changedDogs (chipNumber dog)
    (if strict_eq_true (present dog) then STATUS.PRESENT else STATUS.ABSENT).
End DogList.

Module DogDetails.
(** [id]/page.js, the [status] constant under "Status Determination". *)
Definition status (changedDogs : overlay) (dog : Dog) : propval :=
  overlay_or changedDogs (chipNumber dog)
    (if truthy (present dog) then STATUS.PRESENT else STATUS.ABSENT).

(** [id]/page.js, [currentStatus] inside [toggleStatus]. *)
Definition currentStatus (changedDogs : overlay) (dog : Dog) : propval :=
  let currentPresent := strict_eq_true (present dog) in
  overlay_or changedDogs (chipNumber dog)
    (if currentPresent then STATUS.PRESENT else STATUS.ABSENT).
End DogDetails.

(** The derivation in the words of the specification: the overlay entry when
    there is one, else "present"/"absent" from the boolean. *)
Definition effectiveStatus_spec (M : overlay) (id : string) (present : bool)
    : string :=
  match M !! id with
  | Some s => s
  | None => if present then "present" else "absent"
  end.

(** The boolean a [present] field stands for ([undefined] counts as not
    present). *)
Definition present_flag (v : jsval) : bool := strict_eq_true v.

(** ** Navigation between dogs ([setupNavigation]) *)

(** [Array.prototype.findIndex]: the index of the first element that passes
    the test, or -1. *)
Fixpoint findIndex_from {A} (p : A → bool) (i : Z) (l : list A) : Z :=
  match l with
  | [] => -1
  | x :: l' => if p x then i else findIndex_from p (i + 1) l'
  end.

Definition findIndex {A} (p : A → bool) (l : list A) : Z :=
  findIndex_from p 0 l.

(** [arr[i]] for an integer index: [None] is [undefined]. *)
Definition js_index {A} (l : list A) (i : Z) : option A :=
  if (i <? 0)%Z then None else l !! Z.to_nat i.

(** What [setPrevDogId] / [setNextDogId] are given: [null], or the value of a
    [chipNumber] field. *)
Inductive navid : Type :=
  | NavNull
  | NavId (chip : option string).

Record nav : Type := mkNav {
  prevDogId : navid;
  nextDogId : navid
}.

(** [dogs[i].chipNumber]; reading a property of [undefined] throws, which is
    [None] here. *)
Definition chipNumber_at (dogs : list Dog) (i : Z) : option navid :=
  d ← js_index dogs i; Some (NavId (chipNumber d)).

(** [setupNavigation(dogs, currentChipNumber)], returning the two ids it
    sets.  [None] would be a [TypeError]. *)
Definition setupNavigation (dogs : list Dog) (currentChipNumber : option string)
    : option nav :=
  let dogIndex :=
    findIndex (λ dog, bool_decide (chipNumber dog = currentChipNumber)) dogs in
  prev ← (if (0 <? dogIndex)%Z
          then chipNumber_at dogs (dogIndex - 1)
          else Some NavNull);
  next ← (if (dogIndex <? Z.of_nat (length dogs) - 1)%Z
          then chipNumber_at dogs (dogIndex + 1)
          else Some NavNull);
  Some {| prevDogId := prev; nextDogId := next |}.

(** The roster of the end-to-end scenarios of the specification. *)
Definition rex : Dog :=
  {| chipNumber := Some "A1"; name := Some "Rex"; present := JBool true |}.
Definition fido : Dog :=
  {| chipNumber := Some "B2"; name := Some "Fido"; present := JBool false |}.
Definition roster12 : list Dog := [rex; fido].

(** A dog whose chip number is the name of a property every plain object
    inherits. *)
Definition dog_constructor : Dog :=
  {| chipNumber := Some "constructor"; name := Some "Rex";
     present := JBool true |}.

(** ** The overlay store ([DogStatusProvider])

    The three pieces of React state of the provider, a clock in
    milliseconds, and the due times of the pending [setTimeout] callbacks of
    [updateStatus]; each of those callbacks runs [setIsUpdating(false)]. *)
Record store : Type := mkStore {
  changedDogs : overlay;
  isUpdating : bool;
  lastError : option string;
  clock : Z;
  timeouts : list Z
}.

(** The provider as mounted: [useState({})], [useState(false)],
    [useState(null)]. *)
Definition init_store : store :=
  {| changedDogs := ∅; isUpdating := false; lastError := None;
     clock := 0; timeouts := [] |}.

(** The delay of the simulated round trip in [updateStatus]. *)
Definition UPDATE_DELAY : Z := 300.

(** [updateStatus(chipNumber, newStatus)]: the returned boolean and the next
    state.  None of the calls inside the [try] block throws, so the [catch]
    branch is never entered. *)
Definition updateStatus (chip : option string) (newStatus : string) (s : store)
    : bool * store :=
  if falsy_id chip then
    (false,
     {| changedDogs := changedDogs s;
        isUpdating := isUpdating s;
        lastError := Some "Invalid dog identifier";
        clock := clock s;
        timeouts := timeouts s |})
  else
    (true,
     {| changedDogs := <[prop_key chip := newStatus]> (changedDogs s);
        isUpdating := true;
        lastError := lastError s;
        clock := clock s;
        timeouts := timeouts s ++ [(clock s + UPDATE_DELAY)%Z] |}).

(** [clearError()]. *)
Definition clearError (s : store) : store :=
  {| changedDogs := changedDogs s;
     isUpdating := isUpdating s;
     lastError := None;
     clock := clock s;
     timeouts := timeouts s |}.

(** [dt] milliseconds pass: the callbacks that are due run (each sets
    [isUpdating] to false) and leave the queue. *)
Definition elapse (dt : Z) (s : store) : store :=
  let now := (clock s + dt)%Z in
  let due := List.filter (λ t, (t <=? now)%Z) (timeouts s) in
  {| changedDogs := changedDogs s;
     isUpdating := match due with [] => isUpdating s | _ :: _ => false end;
     lastError := lastError s;
     clock := now;
     timeouts := List.filter (λ t, negb (t <=? now)%Z) (timeouts s) |}.

(** [toggleStatus] of the detail page; [dog] is the page's [dog] state, which
    is [null] ([None]) until the record is loaded. *)
Definition toggleStatus (dog : option Dog) (s : store) : store :=
  match dog with
  | None => s
  | Some dog =>
      let currentStatus := DogDetails.currentStatus (changedDogs s) dog in
      let newStatus :=
        if strict_eq_str currentStatus STATUS.PRESENT
        then STATUS.ABSENT else STATUS.PRESENT in
      snd (updateStatus (chipNumber dog) newStatus s)
  end.

(** What can happen to the store during a session. *)
Inductive action : Type :=
  | Toggle (dog : option Dog)
  | Elapse (dt : Z)
  | ClearError.

Definition step (s : store) (a : action) : store :=
  match a with
  | Toggle dog => toggleStatus dog s
  | Elapse dt => elapse dt s
  | ClearError => clearError s
  end.

Definition run (acts : list action) (s : store) : store :=
  foldl step s acts.

(** An overlay that holds only the two stored statuses. *)
Definition overlay_wf (M : overlay) : Prop :=
  ∀ k v, M !! k = Some v → v = STATUS.PRESENT ∨ v = STATUS.ABSENT.

(** [present] to [absent] and back; whatever is not "present" goes to
    [present]. *)
Definition flip_status (st : propval) : string :=
  if strict_eq_str st STATUS.PRESENT then STATUS.ABSENT else STATUS.PRESENT.

(** ** The list view: search and filter ([filteredDogs])

    [String.prototype.toLowerCase] belongs to the platform.  On strings of
    ASCII characters it maps 'A'..'Z' to 'a'..'z' and leaves the rest alone,
    and that is what [toLowerCase] below does; names and terms with other
    characters are outside its domain, and statements that lean on how
    lower-casing treats a string character by character say [is_ascii]. *)

Definition ascii_char (c : ascii) : bool := (nat_of_ascii c <? 128)%nat.

Fixpoint is_ascii (s : string) : bool :=
  match s with
  | EmptyString => true
  | String c s' => ascii_char c && is_ascii s'
  end.

Definition lower_ascii (c : ascii) : ascii :=
  let n := nat_of_ascii c in
  if (65 <=? n)%nat && (n <=? 90)%nat then ascii_of_nat (n + 32) else c.

Fixpoint toLowerCase (s : string) : string :=
  match s with
  | EmptyString => EmptyString
  | String c s' => String (lower_ascii c) (toLowerCase s')
  end.

(** [s.startsWith(needle)], the test [includes] makes at each position. *)
Fixpoint startsWith (s needle : string) : bool :=
  match needle, s with
  | EmptyString, _ => true
  | String _ _, EmptyString => false
  | String c needle', String d s' => Ascii.eqb c d && startsWith s' needle'
  end.

(** [s.includes(needle)]. *)
Fixpoint includes (s needle : string) : bool :=
  startsWith s needle ||
  match s with
  | EmptyString => false
  | String _ s' => includes s' needle
  end.

(** [o || ""] for a string that may be [undefined]. *)
Definition or_empty (o : option string) : string :=
  match o with
  | Some s => s
  | None => ""
  end.

(** The callback of the first [.filter]: the name test. *)
Definition name_test (debouncedSearchTerm : option string) (dog : Dog) : bool :=
  let dogName := toLowerCase (or_empty (name dog)) in
  let searchTermLower := toLowerCase (or_empty debouncedSearchTerm) in
  includes dogName searchTermLower.

(** The callback of the second [.filter]: the status test. *)
Definition status_test (filter : string) (changedDogs : overlay) (dog : Dog)
    : bool :=
  if String.eqb filter STATUS.ALL then true
  else if js_in (prop_key (chipNumber dog)) changedDogs then
    strict_eq_str (js_get (prop_key (chipNumber dog)) changedDogs) filter
  else
    let presentStatus :=
      if strict_eq_true (present dog) then STATUS.PRESENT else STATUS.ABSENT in
    String.eqb presentStatus filter.

Definition name_filter (debouncedSearchTerm : option string) (dogs : list Dog)
    : list Dog :=
  List.filter (name_test debouncedSearchTerm) dogs.

Definition status_filter (filter : string) (changedDogs : overlay)
    (dogs : list Dog) : list Dog :=
  List.filter (status_test filter changedDogs) dogs.

(** [dogs.filter(name test).filter(status test)]. *)
Definition filteredDogs (dogs : list Dog) (debouncedSearchTerm : option string)
    (filter : string) (changedDogs : overlay) : list Dog :=
  status_filter filter changedDogs (name_filter debouncedSearchTerm dogs).

(** Case-insensitive substring, in the words of the specification: some
    stretch of [hay] equals [needle] up to the case of its letters. *)
Definition ci_substring (needle hay : string) : Prop :=
  ∃ pre mid post,
    hay = pre +:+ mid +:+ post ∧ toLowerCase mid = toLowerCase needle.

(** ** The list view: loading the roster ([fetchDogs]) *)

(** A thrown JavaScript error: its [name] and [message]. *)
Record exn : Type := mkExn {
  exn_name : string;
  exn_message : string
}.

(** [new Error(message)]. *)
Definition Error (message : string) : exn :=
  {| exn_name := "Error"; exn_message := message |}.

(** What [res.json()] resolves to: an array whose elements are records
    (objects, read field by field as a [Dog]), or a value that is not an
    array.  Arrays with a [null] element are not represented. *)
Inductive json : Type :=
  | JsonArray (records : list Dog)
  | JsonOther.

(** What the network does with one request: [fetch] rejects (a network
    failure, or the [AbortError] of the 10 s timeout), or it resolves with a
    status code and a body that [res.json()] parses or rejects. *)
Inductive response : Type :=
  | FetchRejected (err : exn)
  | FetchResolved (status : Z) (body : exn + json).

(** [res.ok]: the status is in the range 200-299. *)
Definition res_ok (status : Z) : bool :=
  (200 <=? status)%Z && (status <=? 299)%Z.

(** The state of the list component that [fetchDogs] writes. *)
Record list_state : Type := mkListState {
  dogs : list Dog;
  isLoading : bool;
  error : option string
}.

(** [useState([])], [useState(true)], [useState(null)]. *)
Definition init_list_state : list_state :=
  {| dogs := []; isLoading := true; error := None |}.

(** Computations over the component state that may throw. *)
Definition Load (A : Type) : Type := list_state → (exn + A) * list_state.

#[local] Instance Load_ret : MRet Load := λ A x s, (inr x, s).

#[local] Instance Load_bind : MBind Load := λ A B f m s,
  match m s with
  | (inl e, s') => (inl e, s')
  | (inr x, s') => f x s'
  end.

Definition throw {A} (e : exn) : Load A := λ s, (inl e, s).

(** [try { body } catch (err) { handler(err) } finally { cleanup }]. *)
Definition try_catch_finally (body : Load ()) (handler : exn → Load ())
    (cleanup : Load ()) : Load () := λ s,
  match body s with
  | (inr _, s') => cleanup s'
  | (inl e, s') =>
      match handler e s' with
      | (inr _, s'') => cleanup s''
      | (inl e', s'') =>
          match cleanup s'' with
          | (inr _, s''') => (inl e', s''')
          | (inl e'', s''') => (inl e'', s''')
          end
      end
  end.

Definition setDogs (data : list Dog) : Load () := λ s,
  (inr (), {| dogs := data; isLoading := isLoading s; error := error s |}).

Definition setIsLoading (b : bool) : Load () := λ s,
  (inr (), {| dogs := dogs s; isLoading := b; error := error s |}).

Definition setError (e : option string) : Load () := λ s,
  (inr (), {| dogs := dogs s; isLoading := isLoading s; error := e |}).

(** [await fetch(...)]: the status and pending body, or the rejection. *)
Definition await_fetch (net : response) : Load (Z * (exn + json)) :=
  match net with
  | FetchRejected err => throw err
  | FetchResolved status body => mret (status, body)
  end.

(** [await res.json()]. *)
Definition await_json (body : exn + json) : Load json :=
  match body with
  | inl err => throw err
  | inr data => mret data
  end.

(** The messages of the two errors [fetchDogs] throws itself. *)
Definition fetch_error_message (status : Z) : string :=
  "Failed to fetch dogs (Status: " +:+ pretty status +:+ ")".

Definition format_error_message : string :=
  "Invalid data format: expected an array of dogs".

(** [message || fallback]. *)
Definition message_or (message fallback : string) : string :=
  if String.eqb message "" then fallback else message.

(** The body of the [try] block of [fetchDogs]. *)
Definition fetchDogs_try (net : response) : Load () :=
  setIsLoading true;;
  setError None;;
  res ← await_fetch net;
  (if negb (res_ok res.1)
   then throw (Error (fetch_error_message res.1))
   else mret ());;
  data ← await_json res.2;
  match data with
  | JsonOther => throw (Error format_error_message)
  | JsonArray records => setDogs records
  end.

(** The [catch] block of [fetchDogs]. *)
Definition fetchDogs_catch (err : exn) : Load () :=
  if String.eqb (exn_name err) "AbortError"
  then setError (Some "Request timed out. Please try again.")
  else setError (Some (message_or (exn_message err) "Failed to load dogs")).

(** [fetchDogs], given what the network answers. *)
Definition fetchDogs (net : response) : Load () :=
  try_catch_finally (fetchDogs_try net) fetchDogs_catch (setIsLoading false).

(** The Retry button: [onClick={fetchDogs}]. *)
Definition retry : response → Load () := fetchDogs.

(** ** The list view: the debounced search term ([useDebounce])

    One instance of the hook.  [value] is the argument of the last render (the
    dependency the effect compares), [debouncedValue] is the hook's state.
    Every run of the effect follows the cleanup of the previous run, which
    clears the timer that run set, so at most one timer is pending: [handler]
    holds its due time and the value its callback closes over.  [emitted]
    logs the arguments of the [setDebouncedValue] calls made by timers,
    oldest first.  Times are in milliseconds. *)
Record debounce : Type := mkDebounce {
  value : option string;
  debouncedValue : option string;
  handler : option (Z * option string);
  emitted : list (option string)
}.

(** The effect body: nothing for [undefined], else [setTimeout(..., delay)]. *)
Definition run_effect (delay t : Z) (v : option string)
    : option (Z * option string) :=
  match v with
  | None => None
  | Some _ => Some ((t + delay)%Z, v)
  end.

(** The first render: [useState(value)], then the effect. *)
Definition mount (delay t : Z) (v : option string) : debounce :=
  {| value := v; debouncedValue := v;
     handler := run_effect delay t v; emitted := [] |}.

(** Time reaches [t]: a pending timer that is due runs its callback. *)
Definition fire_due (t : Z) (s : debounce) : debounce :=
  match handler s with
  | Some (due, v) =>
      if (due <=? t)%Z
      then {| value := value s; debouncedValue := v;
              handler := None; emitted := emitted s ++ [v] |}
      else s
  | None => s
  end.

(** A render at time [t] with argument [v]: when [v] differs from the last
    argument the cleanup clears the pending timer and the effect runs again;
    otherwise the effect is skipped. *)
Definition render (delay t : Z) (v : option string) (s : debounce) : debounce :=
  let s := fire_due t s in
  if decide (v = value s) then s
  else {| value := v; debouncedValue := debouncedValue s;
          handler := run_effect delay t v; emitted := emitted s |}.

Definition renders (delay : Z) (evs : list (Z * option string)) (s : debounce)
    : debounce :=
  foldl (λ s ev, render delay ev.1 ev.2 s) s evs.

(** A burst after the update [(t, v)]: every update changes the value and
    comes less than [delay] after the one before. *)
Fixpoint burst (delay t : Z) (v : option string)
    (evs : list (Z * option string)) : bool :=
  match evs with
  | [] => true
  | (t', v') :: evs' =>
      (t <=? t')%Z && (t' <? t + delay)%Z && negb (bool_decide (v' = v)) &&
      burst delay t' v' evs'
  end.

(** What a timer set for [v] emits once due: [v], unless [v] is [undefined],
    for which no timer exists. *)
Definition emission (v : option string) : list (option string) :=
  match v with
  | None => []
  | Some _ => [v]
  end.

(** A timer, when there is one, closes over a defined value. *)
Definition handler_defined (s : debounce) : Prop :=
  ∀ due v, handler s = Some (due, v) → v ≠ None.


(** ** The detail view: loading one dog ([fetchDogData])

    The state of [DogDetails] that [fetchDogData] writes.  The two adjacent
    identifiers are kept together in [navigation]. *)
Module DetailPage.

Record state : Type := mkState {
  dog : option Dog;
  allDogs : list Dog;
  isLoading : bool;
  error : option string;
  navigation : nav
}.

(** [useState(null)], [useState([])], [useState(true)], [useState(null)],
    and [null] for both adjacent identifiers. *)
Definition init : state :=
  {| dog := None; allDogs := []; isLoading := true; error := None;
     navigation := {| prevDogId := NavNull; nextDogId := NavNull |} |}.

(** Computations over the page state that may throw. *)
Definition Fetch (A : Type) : Type := state → (exn + A) * state.

#[local] Instance Fetch_ret : MRet Fetch := λ A x s, (inr x, s).

#[local] Instance Fetch_bind : MBind Fetch := λ A B f m s,
  match m s with
  | (inl e, s') => (inl e, s')
  | (inr x, s') => f x s'
  end.

Definition throw {A} (e : exn) : Fetch A := λ s, (inl e, s).

(** [try { body } catch (err) { handler(err) } finally { cleanup }]. *)
Definition try_catch_finally (body : Fetch ()) (handler : exn → Fetch ())
    (cleanup : Fetch ()) : Fetch () := λ s,
  match body s with
  | (inr _, s') => cleanup s'
  | (inl e, s') =>
      match handler e s' with
      | (inr _, s'') => cleanup s''
      | (inl e', s'') =>
          match cleanup s'' with
          | (inr _, s''') => (inl e', s''')
          | (inl e'', s''') => (inl e'', s''')
          end
      end
  end.

Definition setDog (d : Dog) : Fetch () := λ s,
  (inr (), {| dog := Some d; allDogs := allDogs s; isLoading := isLoading s;
              error := error s; navigation := navigation s |}).

Definition setAllDogs (data : list Dog) : Fetch () := λ s,
  (inr (), {| dog := dog s; allDogs := data; isLoading := isLoading s;
              error := error s; navigation := navigation s |}).

Definition setIsLoading (b : bool) : Fetch () := λ s,
  (inr (), {| dog := dog s; allDogs := allDogs s; isLoading := b;
              error := error s; navigation := navigation s |}).

Definition setError (e : option string) : Fetch () := λ s,
  (inr (), {| dog := dog s; allDogs := allDogs s; isLoading := isLoading s;
              error := e; navigation := navigation s |}).

(** [setPrevDogId] followed by [setNextDogId]. *)
Definition setNavigation (n : nav) : Fetch () := λ s,
  (inr (), {| dog := dog s; allDogs := allDogs s; isLoading := isLoading s;
              error := error s; navigation := n |}).

Definition await_fetch (net : response) : Fetch (Z * (exn + json)) :=
  match net with
  | FetchRejected err => throw err
  | FetchResolved status body => mret (status, body)
  end.

Definition await_json (body : exn + json) : Fetch json :=
  match body with
  | inl err => throw err
  | inr data => mret data
  end.

(** The messages of the errors [fetchDogData] throws itself. *)
Definition fetch_error_message (status : Z) : string :=
  "Failed to fetch dog data (Status: " +:+ pretty status +:+ ")".

Definition not_found_message (chip : option string) : string :=
  "Dog with ID " +:+ prop_key chip +:+ " not found".

(** [setupNavigation(dogsData, chipNumber)] as a step of the [try] block:
    a [TypeError] if it reads a property of [undefined]. *)
Definition runSetupNavigation (dogsData : list Dog) (chip : option string)
    : Fetch () :=
  match setupNavigation dogsData chip with
  | Some n => setNavigation n
  | None =>
      throw {| exn_name := "TypeError";
               exn_message := "Cannot read properties of undefined" |}
  end.

(** The body of the [try] block of [fetchDogData]. *)
Definition fetchDogData_try (chip : option string) (net : response)
    : Fetch () :=
  setIsLoading true;;
  setError None;;
  res ← await_fetch net;
  (if negb (res_ok res.1)
   then throw (Error (fetch_error_message res.1))
   else mret ());;
  dogsData ← await_json res.2;
  match dogsData with
  | JsonOther => throw (Error format_error_message)
  | JsonArray records =>
      setAllDogs records;;
      match List.find (λ d, bool_decide (chipNumber d = chip)) records with
      | None => throw (Error (not_found_message chip))
      | Some foundDog =>
          setDog foundDog;;
          runSetupNavigation records chip
      end
  end.

(** The [catch] block of [fetchDogData]. *)
Definition fetchDogData_catch (err : exn) : Fetch () :=
  setError (Some (message_or (exn_message err) "Failed to load dog details")).

(** [fetchDogData] for the route parameter [chip], given what the network
    answers.  With a falsy parameter no request is made. *)
Definition fetchDogData (chip : option string) (net : response) : Fetch () :=
  if falsy_id chip then
    setError (Some "Invalid dog ID");;
    setIsLoading false
  else
    try_catch_finally (fetchDogData_try chip net) fetchDogData_catch
      (setIsLoading false).

(** [!prevDogId], the [disabled] attribute of a navigation button. *)
Definition nav_disabled (id : navid) : bool :=
  match id with
  | NavNull => true
  | NavId chip => falsy_id chip
  end.

(** Where a navigation button leads: [id && router.push(`/dogs/${id}`)]. *)
Definition nav_target (id : navid) : option string :=
  if nav_disabled id then None
  else match id with
       | NavNull => None
       | NavId chip => Some ("/dogs/" +:+ prop_key chip)
       end.

(** The label of the toggle button once the busy flag is off:
    [status === STATUS.PRESENT ? 'Mark as Absent' : 'Mark as Present']. *)
Definition toggle_label (changedDogs : overlay) (d : Dog) : string :=
  if strict_eq_str (DogDetails.status changedDogs d) STATUS.PRESENT
  then "Mark as Absent" else "Mark as Present".

End DetailPage.

(** ** The list view: what a card and the empty state show *)

(** The status line of a card:
    [status === STATUS.PRESENT ? "Present" : "Absent"]. *)
Definition status_label (changedDogs : overlay) (d : Dog) : string :=
  if strict_eq_str (DogList.status changedDogs d) STATUS.PRESENT
  then "Present" else "Absent".

(** The text under the controls when the visible list is empty and loading
    is over; [None] when that block is not rendered. *)
Definition empty_message (loading : bool) (visible : list Dog)
    (debouncedSearchTerm : option string) (filter : string) : option string :=
  if negb loading && (length visible =? 0)%nat then
    if negb (falsy_id debouncedSearchTerm) ||
       negb (String.eqb filter STATUS.ALL)
    then Some "No dogs match your search or filter criteria."
    else Some "No dogs are currently registered."
  else None.

(** Updates typed slowly after the update [(t, v)]: every update changes the
    value and comes at least [delay] after the one before. *)
Fixpoint spaced (delay t : Z) (v : option string)
    (evs : list (Z * option string)) : bool :=
  match evs with
  | [] => true
  | (t', v') :: evs' =>
      (t + delay <=? t')%Z && negb (bool_decide (v' = v)) &&
      spaced delay t' v' evs'
  end.

(** The hook keeps its timer in step with its argument: a pending timer
    closes over the current argument, and with no timer pending the debounced
    value is the argument unless that is [undefined]. *)
Definition in_step (s : debounce) : Prop :=
  match handler s with
  | Some (_, w) => w = value s
  | None => value s = None ∨ debouncedValue s = value s
  end.

(** Everything the hook holds came in as an argument: the debounced value,
    the value of a pending timer and the values emitted are all in [vals]. *)
Definition known_values (vals : list (option string)) (s : debounce) : Prop :=
  debouncedValue s ∈ vals ∧
  (∀ due w, handler s = Some (due, w) → w ∈ vals) ∧
  (∀ w, w ∈ emitted s → w ∈ vals).

(** ** Effective status: C1 *)

Lemma truthy_boolean_or_missing v :
  boolean_or_missing v → truthy v = strict_eq_true v.
Proof. destruct v as [| |[]| | |]; simpl; intros H; done. Qed.

Lemma overlay_or_own (M : overlay) (chip : option string) (dflt s : string) :
  M !! prop_key chip = Some s → overlay_or M chip dflt = PStr s.
Proof.
  intros H. unfold overlay_or, js_in, js_get. rewrite H.
  by rewrite bool_decide_eq_true_2 by eauto.
Qed.

Lemma overlay_or_fresh (M : overlay) (chip : option string) (dflt : string) :
  M !! prop_key chip = None → inherited (prop_key chip) = false →
  overlay_or M chip dflt = PStr dflt.
Proof.
  intros H Hi. unfold overlay_or, js_in, js_get. rewrite H, Hi.
  by rewrite bool_decide_eq_false_2 by (by intros [? [=]]).
Qed.

Lemma overlay_or_inherited (M : overlay) (chip : option string)
    (dflt : string) :
  M !! prop_key chip = None → inherited (prop_key chip) = true →
  overlay_or M chip dflt = PInherited (prop_key chip).
Proof.
  intros H Hi. unfold overlay_or, js_in, js_get. rewrite H, Hi.
  by rewrite orb_true_r.
Qed.

(** Off the inherited keys the three derivations are the one of the
    specification. *)
Lemma status_not_inherited (M : overlay) (dog : Dog) :
  inherited (prop_key (chipNumber dog)) = false →
  DogList.status M dog =
    PStr (effectiveStatus_spec M (prop_key (chipNumber dog))
            (present_flag (present dog))) ∧
  DogDetails.currentStatus M dog = DogList.status M dog ∧
  (boolean_or_missing (present dog) →
     DogDetails.status M dog = DogList.status M dog).
Proof.
  intros Hi. split_and!.
  - unfold DogList.status, effectiveStatus_spec, present_flag.
    destruct (M !! prop_key (chipNumber dog)) as [s|] eqn:E.
    + by rewrite (overlay_or_own M _ _ s E).
    + rewrite (overlay_or_fresh M _ _ E Hi). by destruct (strict_eq_true _).
  - reflexivity.
  - intros Hb. unfold DogDetails.status, DogList.status.
    by rewrite (truthy_boolean_or_missing _ Hb).
Qed.

(** C1.  For the dog with chip number "constructor" and [present: true],
    under the empty overlay, both views read the function that every object
    inherits under that key instead of deriving "present": the [in] test sees
    inherited properties.  The card then reads "Absent", where the overlay
    has no entry and the derivation of the specification gives "present". *)
Theorem C1_inherited_key_status :
  (∅ : overlay) !! "constructor" = None ∧
  effectiveStatus_spec ∅ "constructor" true = "present" ∧
  DogList.status ∅ dog_constructor = PInherited "constructor" ∧
  DogDetails.status ∅ dog_constructor = PInherited "constructor" ∧
  status_label ∅ dog_constructor = "Absent".
Proof. split_and!; reflexivity. Qed.

(** Outside the documented type of [present] the two views part as well: a
    truthy value that is not [true] reads as absent in the list and as
    present on the detail page. *)
Example status_views_on_non_boolean :
  let d := {| chipNumber := Some "A1"; name := Some "Rex"; present := JNum 1 |} in
  DogList.status ∅ d = "absent" ∧ DogDetails.status ∅ d = "present".
Proof. split; reflexivity. Qed.

(** ** Navigation: C2 and C7 *)

Section findIndex.
Context {A : Type} (p : A → bool).

Lemma findIndex_from_none (i : Z) (l : list A) :
  Forall (λ x, p x = false) l → findIndex_from p i l = (-1)%Z.
Proof.
  intros H. revert i. induction H as [|x l Hx _ IH]; intros i; simpl; [done|].
  by rewrite Hx.
Qed.

Lemma findIndex_from_first (i : Z) (l : list A) (n : nat) (x : A) :
  l !! n = Some x → p x = true →
  (∀ j y, (j < n)%nat → l !! j = Some y → p y = false) →
  findIndex_from p i l = (i + Z.of_nat n)%Z.
Proof.
  revert i n. induction l as [|a l IH]; intros i n Hn Hx Hbefore; [done|].
  destruct n as [|n]; simpl in *.
  - injection Hn as ->. rewrite Hx. lia.
  - rewrite (Hbefore 0%nat a) by (done || lia).
    rewrite (IH (i + 1)%Z n Hn Hx); [lia|].
    intros j y Hj Hy. apply (Hbefore (S j) y); [lia|done].
Qed.
End findIndex.

Lemma js_index_nat {A} (l : list A) (n : nat) :
  js_index l (Z.of_nat n) = l !! n.
Proof.
  unfold js_index. destruct (Z.ltb_spec (Z.of_nat n) 0); [lia|].
  by rewrite Nat2Z.id.
Qed.

(** An identifier that is not in the roster: [findIndex] gives -1, the
    "previous" test fails, and the "next" test [-1 < length - 1] passes as
    soon as the roster is not empty. *)
Lemma setupNavigation_not_found (dogs : list Dog) (id : option string) :
  Forall (λ d, chipNumber d ≠ id) dogs →
  setupNavigation dogs id =
    Some {| prevDogId := NavNull;
            nextDogId := match dogs with
                         | [] => NavNull
                         | d :: _ => NavId (chipNumber d)
                         end |}.
Proof.
  intros H. unfold setupNavigation, findIndex.
  rewrite findIndex_from_none.
  2:{ eapply Forall_impl; [exact H|]. intros d Hd. by apply bool_decide_eq_false. }
  destruct dogs as [|d dogs]; [done|].
  simpl length. destruct (Z.ltb_spec (-1) (Z.of_nat (S (length dogs)) - 1)); [|lia].
  done.
Qed.

(** The identifier found first at position [i]. *)
Lemma setupNavigation_found (dogs : list Dog) (i : nat) (d : Dog) :
  dogs !! i = Some d →
  (∀ j d', (j < i)%nat → dogs !! j = Some d' → chipNumber d' ≠ chipNumber d) →
  setupNavigation dogs (chipNumber d) =
    Some {| prevDogId := match i with
                         | O => NavNull
                         | S j => from_option (λ d', NavId (chipNumber d'))
                                    NavNull (dogs !! j)
                         end;
            nextDogId := from_option (λ d', NavId (chipNumber d'))
                           NavNull (dogs !! S i) |}.
Proof.
  intros Hi Hfirst. unfold setupNavigation, findIndex.
  rewrite (findIndex_from_first _ 0 dogs i d Hi).
  2:{ by apply bool_decide_eq_true. }
  2:{ intros j y Hj Hy. apply bool_decide_eq_false. eauto. }
  pose proof (lookup_lt_Some _ _ _ Hi) as Hlen.
  replace (0 + Z.of_nat i)%Z with (Z.of_nat i) by lia.
  assert (Hprev : (if (0 <? Z.of_nat i)%Z
                   then chipNumber_at dogs (Z.of_nat i - 1)
                   else Some NavNull) =
                  Some match i with
                       | O => NavNull
                       | S j => from_option (λ d', NavId (chipNumber d'))
                                  NavNull (dogs !! j)
                       end).
  { destruct i as [|j]; [done|].
    destruct (Z.ltb_spec 0 (Z.of_nat (S j))); [|lia].
    replace (Z.of_nat (S j) - 1)%Z with (Z.of_nat j) by lia.
    unfold chipNumber_at. rewrite js_index_nat.
    destruct (lookup_lt_is_Some_2 dogs j ltac:(lia)) as [d' ->]. done. }
  assert (Hnext : (if (Z.of_nat i <? Z.of_nat (length dogs) - 1)%Z
                   then chipNumber_at dogs (Z.of_nat i + 1)
                   else Some NavNull) =
                  Some (from_option (λ d', NavId (chipNumber d'))
                          NavNull (dogs !! S i))).
  { destruct (Z.ltb_spec (Z.of_nat i) (Z.of_nat (length dogs) - 1)).
    - replace (Z.of_nat i + 1)%Z with (Z.of_nat (S i)) by lia.
      unfold chipNumber_at. rewrite js_index_nat.
      destruct (lookup_lt_is_Some_2 dogs (S i) ltac:(lia)) as [d' ->]. done.
    - rewrite (lookup_ge_None_2 dogs (S i)) by lia. done. }
  rewrite Hprev, Hnext. done.
Qed.


(** C7.  When the identifier is first found at position [i] of a roster of
    length N: the resolver succeeds; at [i = 0] previous is [null]; at
    [i = N - 1] next is [null]; after position 0 previous is the chip number
    at [i - 1], and before position N - 1 next is the chip number at
    [i + 1]. *)
Theorem C7_adjacent_at_position (dogs : list Dog) (i : nat) (d : Dog) :
  dogs !! i = Some d →
  (∀ j d', (j < i)%nat → dogs !! j = Some d' → chipNumber d' ≠ chipNumber d) →
  ∃ n : nav,
    setupNavigation dogs (chipNumber d) = Some n ∧
    (i = 0%nat → prevDogId n = NavNull) ∧
    (S i = length dogs → nextDogId n = NavNull) ∧
    (∀ j dp, i = S j → dogs !! j = Some dp → prevDogId n = NavId (chipNumber dp)) ∧
    (∀ dn, dogs !! S i = Some dn → nextDogId n = NavId (chipNumber dn)).
Proof.
  intros Hi Hfirst. eexists. split; [by apply setupNavigation_found|].
  simpl. repeat split.
  - by intros ->.
  - intros Hlast. rewrite (lookup_ge_None_2 dogs (S i)) by lia. done.
  - intros j dp -> Hj. by rewrite Hj.
  - intros dn Hn. by rewrite Hn.
Qed.

Lemma C7_adjacent_at_position_witness :
  ∃ n : nav,
    setupNavigation roster12 (Some "B2") = Some n ∧
    prevDogId n = NavId (Some "A1") ∧ nextDogId n = NavNull.
Proof.
  assert (∀ j d', (j < 1)%nat → roster12 !! j = Some d' →
                  chipNumber d' ≠ chipNumber fido) as Hfirst.
  { intros j d' Hj Hd'. destruct j as [|j]; [|lia].
    injection Hd' as <-. discriminate. }
  destruct (C7_adjacent_at_position roster12 1 fido eq_refl Hfirst)
    as (n & Hrun & _ & Hnext & Hprev & _).
  exists n. split; [exact Hrun|]. split.
  - exact (Hprev 0%nat rex eq_refl eq_refl).
  - exact (Hnext eq_refl).
Defined.

(** ** The overlay store: C4, C3, C10 *)

Lemma falsy_id_false (chip : option string) :
  falsy_id chip = false ↔ ∃ id, chip = Some id ∧ id ≠ "".
Proof.
  destruct chip as [id|]; simpl.
  - rewrite String.eqb_neq. split.
    + intros Hne. by exists id.
    + intros (id' & [= <-] & Hne). done.
  - split; [done|]. by intros (id' & [=] & _).
Qed.

Lemma falsy_id_true (chip : option string) :
  falsy_id chip = true ↔ chip = None ∨ chip = Some "".
Proof.
  destruct chip as [id|]; simpl.
  - rewrite String.eqb_eq. split.
    + intros ->. by right.
    + by intros [[=]|[= ->]].
  - split; [by left|done].
Qed.

Lemma elapse_clears (dt : Z) (s : store) :
  (∃ t, t ∈ timeouts s ∧ (t ≤ clock s + dt)%Z) → isUpdating (elapse dt s) = false.
Proof.
  intros (t & Hin & Hle). unfold elapse; simpl.
  destruct (List.filter _ _) as [|x l] eqn:E; [|done].
  assert (In t (List.filter (λ t, (t <=? clock s + dt)%Z) (timeouts s))) as Hf.
  { apply filter_In. split; [by apply list_elem_of_In|]. by apply Z.leb_le. }
  rewrite E in Hf. destruct Hf.
Qed.

Lemma elapse_keeps (dt : Z) (s : store) :
  (∀ t, t ∈ timeouts s → (clock s + dt < t)%Z) →
  isUpdating (elapse dt s) = isUpdating s.
Proof.
  intros Hall. unfold elapse; simpl.
  destruct (List.filter _ _) as [|x l] eqn:E; [done|].
  assert (In x (List.filter (λ t, (t <=? clock s + dt)%Z) (timeouts s))) as Hf.
  { rewrite E. by left. }
  apply filter_In in Hf as [Hin Hle]. apply Z.leb_le in Hle.
  apply list_elem_of_In, Hall in Hin. lia.
Qed.

(** C4.  [updateStatus] on an empty or missing identifier returns false,
    records the error "Invalid dog identifier" and leaves the overlay map (and
    the busy flag) as they were.  On a non-empty identifier it returns true,
    the map of the next state is the old one with the entry for the identifier
    inserted or overwritten, the busy flag is set, and once 300 ms have
    passed the flag is cleared again. *)
Theorem C4_updateStatus (chip : option string) (newStatus : string) (s : store) :
  (chip = None ∨ chip = Some "" →
     (updateStatus chip newStatus s).1 = false ∧
     lastError (updateStatus chip newStatus s).2 = Some "Invalid dog identifier" ∧
     changedDogs (updateStatus chip newStatus s).2 = changedDogs s ∧
     isUpdating (updateStatus chip newStatus s).2 = isUpdating s) ∧
  (∀ id, chip = Some id → id ≠ "" →
     (updateStatus chip newStatus s).1 = true ∧
     changedDogs (updateStatus chip newStatus s).2 =
       <[id := newStatus]> (changedDogs s) ∧
     changedDogs (updateStatus chip newStatus s).2 !! id = Some newStatus ∧
     (∀ k, k ≠ id →
        changedDogs (updateStatus chip newStatus s).2 !! k = changedDogs s !! k) ∧
     lastError (updateStatus chip newStatus s).2 = lastError s ∧
     isUpdating (updateStatus chip newStatus s).2 = true ∧
     (∀ dt, (UPDATE_DELAY ≤ dt)%Z →
        isUpdating (elapse dt (updateStatus chip newStatus s).2) = false)).
Proof.
  split.
  - intros H%falsy_id_true. unfold updateStatus. rewrite H. done.
  - intros id -> Hid.
    assert (falsy_id (Some id) = false) as Hf by (apply falsy_id_false; eauto).
    unfold updateStatus. rewrite Hf.
    cbn [fst snd prop_key changedDogs isUpdating lastError].
    split_and!; try reflexivity.
    + apply lookup_insert_eq.
    + intros k Hk. by rewrite lookup_insert_ne.
    + intros dt Hdt. apply elapse_clears. cbn [timeouts clock].
      exists (clock s + UPDATE_DELAY)%Z. split; [set_solver|lia].
Qed.

Lemma C4_updateStatus_witness :
  (updateStatus (Some "A1") "absent" init_store).1 = true ∧
  changedDogs (updateStatus (Some "A1") "absent" init_store).2 !! "A1"
    = Some "absent" ∧
  (updateStatus (Some "") "absent" init_store).1 = false ∧
  (updateStatus None "absent" init_store).1 = false.
Proof.
  destruct (C4_updateStatus (Some "A1") "absent" init_store) as [_ H].
  destruct (H "A1" eq_refl ltac:(discriminate)) as (H1 & _ & H2 & _).
  destruct (C4_updateStatus (Some "") "absent" init_store) as [H3 _].
  destruct (C4_updateStatus None "absent" init_store) as [H4 _].
  split; [exact H1|]. split; [exact H2|].
  split; [exact (proj1 (H3 (or_intror eq_refl)))|].
  exact (proj1 (H4 (or_introl eq_refl))).
Defined.

(** With no older callback pending, the flag stays set for the whole window. *)
Lemma updateStatus_busy_during_window (id newStatus : string) (s : store) (dt : Z) :
  id ≠ "" → timeouts s = [] → (dt < UPDATE_DELAY)%Z →
  isUpdating (elapse dt (updateStatus (Some id) newStatus s).2) = true.
Proof.
  intros Hid Hq Hdt.
  assert (falsy_id (Some id) = false) as Hf by (apply falsy_id_false; eauto).
  unfold updateStatus. rewrite Hf. cbn [fst snd]. rewrite elapse_keeps; [done|].
  cbn [timeouts clock]. rewrite Hq. intros t Ht. apply list_elem_of_singleton in Ht. lia.
Qed.

Lemma flip_status_present : flip_status STATUS.PRESENT = STATUS.ABSENT.
Proof. reflexivity. Qed.

Lemma flip_status_absent : flip_status STATUS.ABSENT = STATUS.PRESENT.
Proof. reflexivity. Qed.

Lemma flip_status_stored (st : propval) :
  flip_status st = STATUS.PRESENT ∨ flip_status st = STATUS.ABSENT.
Proof. unfold flip_status. destruct (strict_eq_str _ _); auto. Qed.

Lemma flip_status_involutive (st : string) :
  st = STATUS.PRESENT ∨ st = STATUS.ABSENT → flip_status (flip_status st) = st.
Proof. by intros [-> | ->]. Qed.

(** The overlay after a toggle, by cases on the identifier. *)
Lemma toggleStatus_changedDogs (dog : Dog) (s : store) :
  changedDogs (toggleStatus (Some dog) s) =
    if falsy_id (chipNumber dog) then changedDogs s
    else <[prop_key (chipNumber dog) :=
             flip_status (DogDetails.currentStatus (changedDogs s) dog)]>
           (changedDogs s).
Proof.
  unfold toggleStatus, updateStatus, flip_status.
  by destruct (falsy_id (chipNumber dog)).
Qed.

Lemma currentStatus_stored (M : overlay) (dog : Dog) :
  (∀ v, M !! prop_key (chipNumber dog) = Some v →
        v = STATUS.PRESENT ∨ v = STATUS.ABSENT) →
  inherited (prop_key (chipNumber dog)) = false →
  ∃ st : string,
    DogDetails.currentStatus M dog = PStr st ∧
    (st = STATUS.PRESENT ∨ st = STATUS.ABSENT).
Proof.
  intros HM Hi. unfold DogDetails.currentStatus.
  destruct (M !! prop_key (chipNumber dog)) as [v|] eqn:E.
  - exists v. split; [by apply overlay_or_own|by apply HM].
  - rewrite (overlay_or_fresh M _ _ E Hi).
    destruct (strict_eq_true _); eauto.
Qed.

Lemma currentStatus_insert (M : overlay) (dog : Dog) (st : string) :
  DogDetails.currentStatus (<[prop_key (chipNumber dog) := st]> M) dog = st.
Proof.
  unfold DogDetails.currentStatus. apply overlay_or_own, lookup_insert_eq.
Qed.

Lemma overlay_wf_empty : overlay_wf ∅.
Proof. intros k v. by rewrite lookup_empty. Qed.

Lemma overlay_wf_insert (M : overlay) (k st : string) :
  overlay_wf M → st = STATUS.PRESENT ∨ st = STATUS.ABSENT →
  overlay_wf (<[k := st]> M).
Proof.
  intros HM Hst k' v. destruct (decide (k = k')) as [->|Hne].
  - rewrite lookup_insert_eq. by intros [= <-].
  - rewrite lookup_insert_ne by done. apply HM.
Qed.

Lemma step_overlay_wf (s : store) (a : action) :
  overlay_wf (changedDogs s) → overlay_wf (changedDogs (step s a)).
Proof.
  intros Hwf. destruct a as [[dog|]|dt|]; cbn [step]; try done.
  rewrite toggleStatus_changedDogs.
  destruct (falsy_id _); [done|].
  apply overlay_wf_insert; [done|]. apply flip_status_stored.
Qed.

Lemma run_overlay_wf (acts : list action) (s : store) :
  overlay_wf (changedDogs s) → overlay_wf (changedDogs (run acts s)).
Proof.
  revert s. induction acts as [|a acts IH]; intros s Hwf; [done|].
  simpl. apply IH. by apply step_overlay_wf.
Qed.

(** C3.  For the dog with chip number "constructor" and [present: true], on
    the store as mounted, [toggleStatus] reads the inherited function as the
    current status and stores "present", where the flip of the dog's
    effective status (no overlay entry, so "present" from the boolean) is
    "absent". *)
Theorem C3_inherited_key_toggle :
  changedDogs init_store !! "constructor" = None ∧
  flip_status (PStr (effectiveStatus_spec (changedDogs init_store)
                       "constructor" true)) = "absent" ∧
  DogDetails.currentStatus (changedDogs init_store) dog_constructor
    = PInherited "constructor" ∧
  changedDogs (toggleStatus (Some dog_constructor) init_store) !! "constructor"
    = Some "present".
Proof. split_and!; reflexivity. Qed.

Lemma toggle_twice_status (dog : Dog) (s : store) :
  (∀ v, changedDogs s !! prop_key (chipNumber dog) = Some v →
        v = STATUS.PRESENT ∨ v = STATUS.ABSENT) →
  inherited (prop_key (chipNumber dog)) = false →
  DogDetails.currentStatus
    (changedDogs (toggleStatus (Some dog) (toggleStatus (Some dog) s))) dog =
  DogDetails.currentStatus (changedDogs s) dog.
Proof.
  intros Hentry Hi. rewrite !toggleStatus_changedDogs.
  destruct (falsy_id (chipNumber dog)); [done|].
  rewrite !currentStatus_insert.
  destruct (currentStatus_stored _ dog Hentry Hi) as (st & -> & Hst).
  by rewrite flip_status_involutive.
Qed.

(** C10.  For the dog with chip number "constructor" and [present: true], on
    the store as mounted (whose overlay is empty), the status the views
    compute is the inherited function before the first toggle and "absent"
    after the second; by the derivation of the specification it was
    "present" before.  Either way two toggles do not restore it. *)
Theorem C10_inherited_key_two_toggles :
  overlay_wf (changedDogs init_store) ∧
  effectiveStatus_spec (changedDogs init_store) "constructor" true
    = "present" ∧
  DogList.status (changedDogs init_store) dog_constructor
    = PInherited "constructor" ∧
  DogList.status
    (changedDogs (toggleStatus (Some dog_constructor)
                    (toggleStatus (Some dog_constructor) init_store)))
    dog_constructor = "absent".
Proof. split_and!; [exact overlay_wf_empty | reflexivity..]. Qed.

(** In any state the session can reach, two toggles in a row restore the
    effective status of a dog whose chip number is not an inherited key. *)
Corollary toggle_involution_reachable (acts : list action) (dog : Dog) :
  inherited (prop_key (chipNumber dog)) = false →
  let s := run acts init_store in
  DogList.status
    (changedDogs (toggleStatus (Some dog) (toggleStatus (Some dog) s))) dog =
  DogList.status (changedDogs s) dog.
Proof.
  intros Hi s. apply toggle_twice_status; [|done]. intros v.
  apply (run_overlay_wf acts init_store overlay_wf_empty).
Qed.

(** ** Search and filter: C5 and C8 *)

Lemma toLowerCase_app (a b : string) :
  toLowerCase (a +:+ b) = toLowerCase a +:+ toLowerCase b.
Proof. induction a as [|c a IH]; simpl; [done|]. by rewrite IH. Qed.

Lemma toLowerCase_split (s a b : string) :
  toLowerCase s = a +:+ b →
  ∃ a' b', s = a' +:+ b' ∧ toLowerCase a' = a ∧ toLowerCase b' = b.
Proof.
  revert s. induction a as [|c a IH]; intros s Hs; simpl in Hs.
  - by exists "", s.
  - destruct s as [|d s]; simpl in Hs; [done|].
    injection Hs as Hc Hs. destruct (IH s Hs) as (a' & b' & -> & Ha & Hb).
    exists (String d a'), b'. simpl. by rewrite Hc, Ha.
Qed.

Lemma toLowerCase_empty (s : string) : toLowerCase s = "" ↔ s = "".
Proof. destruct s; simpl; split; intros H; done. Qed.

Lemma startsWith_spec (s needle : string) :
  startsWith s needle = true ↔ ∃ post, s = needle +:+ post.
Proof.
  revert s. induction needle as [|c needle IH]; intros s.
  - destruct s; simpl; split; eauto.
  - destruct s as [|d s]; simpl.
    + split; [done|]. by intros [post Hpost].
    + rewrite andb_true_iff, Ascii.eqb_eq, IH. split.
      * intros [-> [post ->]]. by exists post.
      * intros [post [= -> ->]]. eauto.
Qed.

Lemma includes_spec (s needle : string) :
  includes s needle = true ↔ ∃ pre post, s = pre +:+ needle +:+ post.
Proof.
  induction s as [|d s IH].
  - cbn [includes]. rewrite orb_false_r, startsWith_spec. split.
    + intros [post ->]. by exists "", post.
    + intros (pre & post & H). destruct pre; simpl in H; [eauto|done].
  - cbn [includes]. rewrite orb_true_iff, startsWith_spec, IH. split.
    + intros [[post ->] | (pre & post & ->)].
      * by exists "", post.
      * by exists (String d pre), post.
    + intros (pre & post & H). destruct pre as [|c pre]; simpl in H.
      * left. eauto.
      * injection H as -> ->. right. eauto.
Qed.

Lemma includes_empty (s : string) : includes s "" = true.
Proof. apply includes_spec. by exists "", s. Qed.

Lemma includes_in_empty (needle : string) :
  includes "" needle = true ↔ needle = "".
Proof. destruct needle; simpl; split; intros H; done. Qed.

Lemma or_empty_empty (o : option string) :
  or_empty o = "" ↔ o = None ∨ o = Some "".
Proof.
  destruct o as [s|]; simpl; split.
  - intros ->. by right.
  - by intros [[=]|[= ->]].
  - by left.
  - done.
Qed.

(** The name test is the case-insensitive substring match of the term
    against the name, both defaulting to the empty string. *)
Lemma name_test_spec (term : option string) (dog : Dog) :
  name_test term dog = true ↔ ci_substring (or_empty term) (or_empty (name dog)).
Proof.
  unfold name_test, ci_substring. rewrite includes_spec. split.
  - intros (pre & post & H).
    apply toLowerCase_split in H as (pre' & rest & -> & _ & H).
    apply toLowerCase_split in H as (mid & post' & -> & Hmid & _).
    by exists pre', mid, post'.
  - intros (pre & mid & post & -> & Hmid).
    exists (toLowerCase pre), (toLowerCase post).
    by rewrite !toLowerCase_app, Hmid.
Qed.

Lemma strict_eq_str_spec (v : propval) (s : string) :
  strict_eq_str v s = true ↔ v = PStr s.
Proof.
  destruct v as [|x|k]; simpl; [by split|..|by split].
  rewrite String.eqb_eq. split; [by intros ->|by intros [= ->]].
Qed.

Lemma status_test_eqb (f : string) (M : overlay) (d : Dog) :
  status_test f M d =
    String.eqb f STATUS.ALL || strict_eq_str (DogList.status M d) f.
Proof.
  unfold status_test, DogList.status, overlay_or.
  destruct (String.eqb f STATUS.ALL); [done|].
  by destruct (js_in _ _).
Qed.

(** The status test passes on the wildcard, and otherwise compares the
    status the list view computes with the filter. *)
Lemma status_test_spec (filter : string) (M : overlay) (dog : Dog) :
  status_test filter M dog = true ↔
  filter = STATUS.ALL ∨ DogList.status M dog = filter.
Proof.
  rewrite status_test_eqb, orb_true_iff, String.eqb_eq, strict_eq_str_spec.
  done.
Qed.

Lemma filter_filter_and {A} (p q : A → bool) (l : list A) :
  List.filter q (List.filter p l) = List.filter (λ x, p x && q x) l.
Proof.
  induction l as [|x l IH]; simpl; [done|].
  destruct (p x); simpl; [destruct (q x)|]; by rewrite IH.
Qed.

Lemma filter_sublist {A} (p : A → bool) (l : list A) :
  sublist (List.filter p l) l.
Proof.
  induction l as [|x l IH]; simpl; [constructor|].
  destruct (p x); by constructor.
Qed.

(** C5.  For the roster holding only the dog with chip number "constructor"
    and [present: true], under the empty overlay and an empty search term,
    the name test passes and the dog's effective status by the derivation of
    the specification is "present"; yet the visible list is empty under the
    filter "present", and under "absent" too: the status test reads the
    inherited function and compares it with the filter. *)
Theorem C5_inherited_key_filtered :
  name_test (Some "") dog_constructor = true ∧
  effectiveStatus_spec ∅ "constructor" true = "present" ∧
  filteredDogs [dog_constructor] (Some "") "present" ∅ = [] ∧
  filteredDogs [dog_constructor] (Some "") "absent" ∅ = [] ∧
  filteredDogs [dog_constructor] (Some "") "all" ∅ = [dog_constructor].
Proof. split_and!; reflexivity. Qed.

Lemma status_filter_all (M : overlay) (dogs : list Dog) :
  status_filter STATUS.ALL M dogs = dogs.
Proof.
  unfold status_filter. induction dogs as [|d dogs IH]; simpl; [done|].
  by rewrite IH.
Qed.

(** The two [.filter] calls commute for every filter value. *)
Lemma name_status_filter_comm (term : option string) (filter : string)
    (M : overlay) (dogs : list Dog) :
  status_filter filter M (name_filter term dogs) =
  name_filter term (status_filter filter M dogs).
Proof.
  unfold status_filter, name_filter. rewrite !filter_filter_and.
  apply filter_ext. intros d. apply andb_comm.
Qed.

(** C8.  Filtering by name and then by the status "all" gives the same list
    (hence the same set of dogs) as filtering by the status "all" and then by
    name; both are the list the view computes. *)
Theorem C8_name_all_commute (s : option string) (R : list Dog) (M : overlay) :
  status_filter STATUS.ALL M (name_filter s R) =
    name_filter s (status_filter STATUS.ALL M R) ∧
  filteredDogs R s STATUS.ALL M = status_filter STATUS.ALL M (name_filter s R) ∧
  (∀ d, d ∈ status_filter STATUS.ALL M (name_filter s R) ↔
        d ∈ name_filter s (status_filter STATUS.ALL M R)).
Proof.
  assert (status_filter STATUS.ALL M (name_filter s R) =
          name_filter s (status_filter STATUS.ALL M R)) as Hcomm
    by apply name_status_filter_comm.
  split_and!; [exact Hcomm | reflexivity | by rewrite Hcomm].
Qed.

(** End-to-end scenarios 1 to 3 of the specification. *)
Example scenario_1 : filteredDogs roster12 (Some "") "all" ∅ = [rex; fido].
Proof. reflexivity. Qed.

Example scenario_2 : filteredDogs roster12 (Some "fi") "all" ∅ = [fido].
Proof. reflexivity. Qed.

Example scenario_3 :
  let s := (updateStatus (Some "A1") "absent" init_store).2 in
  DogList.status (changedDogs s) rex = "absent" ∧
  filteredDogs roster12 (Some "") "present" (changedDogs s) = [].
Proof. split; vm_compute; reflexivity. Qed.

(** ** Loading the roster: C6 *)

(** A rejected [fetchDogs] would be an [inl]; there is none. *)
Lemma fetchDogs_settles (net : response) (s : list_state) :
  ∃ s', fetchDogs net s = (inr (), s') ∧ isLoading s' = false ∧
        (error s' = None ∨ dogs s' = dogs s).
Proof.
  unfold fetchDogs, try_catch_finally, fetchDogs_try, fetchDogs_catch.
  destruct net as [err | status [err | [records|]]];
    cbn -[fetch_error_message]; unfold mbind, Load_bind; cbn -[fetch_error_message];
    repeat (match goal with
            | |- context [if ?b then _ else _] => destruct b
            end; cbn -[fetch_error_message]);
    eexists; (split; [reflexivity|]); split; auto.
Qed.

Lemma append_char_inj (a b : string) (c : ascii) :
  a +:+ String c "" = b +:+ String c "" → a = b.
Proof.
  revert b. induction a as [|x a IH]; intros [|y b]; simpl; intros H.
  - done.
  - injection H as _ H. by destruct b.
  - injection H as _ H. by destruct a.
  - injection H as -> H. f_equal. by apply IH.
Qed.

(** The message of a failed status determines the status code. *)
Lemma fetch_error_message_inj (st1 st2 : Z) :
  fetch_error_message st1 = fetch_error_message st2 → st1 = st2.
Proof.
  unfold fetch_error_message. intros H.
  apply (inj (String.append _)) in H.
  apply append_char_inj in H. by apply (inj pretty).
Qed.

Lemma fetchDogs_success (status : Z) (records : list Dog) (s : list_state) :
  res_ok status = true →
  fetchDogs (FetchResolved status (inr (JsonArray records))) s =
    (inr (), {| dogs := records; isLoading := false; error := None |}).
Proof.
  intros Hok. unfold fetchDogs, try_catch_finally, fetchDogs_try.
  cbn. unfold mbind, Load_bind. cbn. by rewrite Hok.
Qed.

(** C6.  With a status outside 200-299 [fetchDogs] ends with the error
    "Failed to fetch dogs (Status: <code>)", which determines the code; with
    a body that is not an array it ends with the error "Invalid data format:
    expected an array of dogs", and a roster that was empty stays empty.
    Whatever the network does, [fetchDogs] settles (nothing is rethrown),
    loading is off, and the roster is untouched whenever an error is set.
    Retry is [fetchDogs] itself. *)
Theorem C6_fetchDogs_failures (s : list_state) (status : Z) :
  (res_ok status = false →
     ∀ body, fetchDogs (FetchResolved status body) s =
       (inr (), {| dogs := dogs s; isLoading := false;
                   error := Some (fetch_error_message status) |})) ∧
  (∀ status', fetch_error_message status = fetch_error_message status' →
              status = status') ∧
  (res_ok status = true →
     fetchDogs (FetchResolved status (inr JsonOther)) s =
       (inr (), {| dogs := dogs s; isLoading := false;
                   error := Some format_error_message |}) ∧
     dogs (fetchDogs (FetchResolved status (inr JsonOther)) init_list_state).2
       = []) ∧
  (∀ net, ∃ s', fetchDogs net s = (inr (), s') ∧ isLoading s' = false ∧
                (error s' ≠ None → dogs s' = dogs s)) ∧
  retry = fetchDogs.
Proof.
  split_and!.
  - intros Hok body. unfold fetchDogs, try_catch_finally, fetchDogs_try.
    cbn -[fetch_error_message]. unfold mbind, Load_bind.
    cbn -[fetch_error_message]. by rewrite Hok.
  - apply fetch_error_message_inj.
  - intros Hok. unfold fetchDogs, try_catch_finally, fetchDogs_try.
    cbn. unfold mbind, Load_bind. cbn. by rewrite Hok.
  - intros net. destruct (fetchDogs_settles net s) as (s' & Hrun & Hload & Hd).
    exists s'. split_and!; [done..|]. intros Herr. by destruct Hd.
  - reflexivity.
Qed.

Lemma C6_fetchDogs_failures_witness :
  res_ok 500 = false ∧ res_ok 200 = true ∧
  error (fetchDogs (FetchResolved 500 (inr (JsonArray roster12)))
           init_list_state).2
    = Some "Failed to fetch dogs (Status: 500)" ∧
  (fetchDogs (FetchResolved 200 (inr JsonOther)) init_list_state).2
    = {| dogs := []; isLoading := false;
         error := Some "Invalid data format: expected an array of dogs" |}.
Proof.
  destruct (C6_fetchDogs_failures init_list_state 500) as (H500 & _).
  destruct (C6_fetchDogs_failures init_list_state 200) as (_ & _ & H200 & _).
  split; [reflexivity|]. split; [reflexivity|]. split.
  - rewrite (H500 eq_refl). reflexivity.
  - destruct (H200 eq_refl) as [-> _]. reflexivity.
Defined.

(** ** The debouncer: C9 *)

Section debounce.
Context (delay : Z).

Lemma run_effect_defined (t : Z) (v : option string) (due : Z)
    (w : option string) :
  run_effect delay t v = Some (due, w) → w ≠ None.
Proof. destruct v; simpl; [|done]. by intros [= _ <-]. Qed.

Lemma fire_due_defined (t : Z) (s : debounce) :
  handler_defined s → None ∉ emitted s →
  handler_defined (fire_due t s) ∧ None ∉ emitted (fire_due t s).
Proof.
  intros Hh He. unfold fire_due.
  destruct (handler s) as [[due v]|] eqn:E; [|done].
  destruct (due <=? t)%Z; [|done]. simpl. split.
  - by intros ??.
  - rewrite elem_of_app, list_elem_of_singleton.
    intros [?|Hv]; [done|]. by apply (Hh due v).
Qed.

Lemma render_defined (t : Z) (v : option string) (s : debounce) :
  handler_defined s → None ∉ emitted s →
  handler_defined (render delay t v s) ∧ None ∉ emitted (render delay t v s).
Proof.
  intros Hh He. destruct (fire_due_defined t s Hh He) as [Hh' He'].
  unfold render. destruct (decide _); [done|]. simpl. split; [|done].
  intros due w. apply run_effect_defined.
Qed.

(** From the first render on, no timer ever emits [undefined]. *)
Lemma renders_never_emit_undefined (evs : list (Z * option string))
    (s : debounce) :
  handler_defined s → None ∉ emitted s →
  handler_defined (renders delay evs s) ∧ None ∉ emitted (renders delay evs s).
Proof.
  revert s. induction evs as [|[t v] evs IH]; intros s Hh He; [done|].
  simpl. destruct (render_defined t v s Hh He). by apply IH.
Qed.

Lemma mount_defined (t : Z) (v : option string) :
  handler_defined (mount delay t v) ∧ None ∉ emitted (mount delay t v).
Proof.
  split; [|by apply not_elem_of_nil].
  intros due w. apply run_effect_defined.
Qed.

(** The state right after an update that changed the value. *)
Lemma render_change (t : Z) (v : option string) (s : debounce) :
  v ≠ value s →
  value (render delay t v s) = v ∧
  handler (render delay t v s) = run_effect delay t v ∧
  emitted (render delay t v s) = emitted (fire_due t s) ∧
  debouncedValue (render delay t v s) = debouncedValue (fire_due t s).
Proof.
  intros Hv. unfold render.
  assert (value (fire_due t s) = value s) as Hval.
  { unfold fire_due. destruct (handler s) as [[due w]|]; [|done].
    by destruct (due <=? t)%Z. }
  rewrite Hval. by destruct (decide (v = value s)).
Qed.

Lemma fire_due_early (t t' : Z) (v : option string) (s : debounce) :
  handler s = run_effect delay t v → (t' < t + delay)%Z → fire_due t' s = s.
Proof.
  intros Hh Ht. unfold fire_due. rewrite Hh.
  destruct v as [x|]; simpl; [|done].
  destruct (Z.leb_spec (t + delay) t'); [lia|done].
Qed.

(** During a burst nothing is emitted; at its end the only pending timer
    is the one of the last update. *)
Lemma burst_pending (evs : list (Z * option string)) (t : Z)
    (v : option string) (s : debounce) :
  value s = v → handler s = run_effect delay t v →
  burst delay t v evs = true →
  let last_ev := default (t, v) (last evs) in
  value (renders delay evs s) = last_ev.2 ∧
  handler (renders delay evs s) = run_effect delay last_ev.1 last_ev.2 ∧
  emitted (renders delay evs s) = emitted s ∧
  debouncedValue (renders delay evs s) = debouncedValue s.
Proof.
  revert t v s. induction evs as [|[t' v'] evs IH]; intros t v s Hv Hh Hb.
  - done.
  - cbn [burst] in Hb. rewrite !andb_true_iff in Hb.
    destruct Hb as [[[Hle Hlt] Hne] Hb].
    apply Z.ltb_lt in Hlt. apply negb_true_iff, bool_decide_eq_false in Hne.
    assert (v' ≠ value s) as Hchg by (by rewrite Hv).
    destruct (render_change t' v' s Hchg) as (Hv1 & Hh1 & He1 & Hd1).
    rewrite (fire_due_early t t' v s Hh Hlt) in He1, Hd1.
    destruct (IH t' v' (render delay t' v' s) Hv1 Hh1 Hb)
      as (IHv & IHh & IHe & IHd).
    cbn [renders foldl fst snd] in *. unfold renders in *.
    rewrite last_cons.
    destruct (last evs) as [ev|]; cbn [default] in *;
      rewrite IHv, IHh, IHe, IHd, He1, Hd1; done.
Qed.
End debounce.

(** C9.  Let an update to [v1] at [t1] change the value and be followed by a
    burst of updates, each changing the value less than [delay] after the one
    before.  Then no timer fires during the burst (each update clears the
    timer of the one before), and by any later time [T] what has been emitted
    since the first update is at most the final value of the burst: exactly
    that value, which is then the debounced value, once [delay] has passed
    since the last update, provided it is not [undefined], and nothing
    otherwise.  If no [undefined] was emitted or pending before, none is
    emitted. *)
Theorem C9_trailing_edge (delay : Z) (s : debounce) (t1 : Z)
    (v1 : option string) (rest : list (Z * option string)) (T : Z) :
  v1 ≠ value s →
  burst delay t1 v1 rest = true →
  let s1 := render delay t1 v1 s in
  let last_ev := default (t1, v1) (last rest) in
  let sT := fire_due T (renders delay rest s1) in
  (∀ k, emitted (renders delay (take k rest) s1) = emitted s1 ∧
        debouncedValue (renders delay (take k rest) s1) = debouncedValue s1) ∧
  emitted sT =
    (emitted s1 ++
       (if (last_ev.1 + delay <=? T)%Z then emission last_ev.2 else []))%list ∧
  (∀ x, last_ev.2 = Some x → (last_ev.1 + delay ≤ T)%Z →
        debouncedValue sT = Some x) ∧
  (handler_defined s → None ∉ emitted s → None ∉ emitted sT).
Proof.
  intros Hchg Hb s1 last_ev sT.
  destruct (render_change delay t1 v1 s Hchg) as (Hv1 & Hh1 & _).
  destruct (burst_pending delay rest t1 v1 s1 Hv1 Hh1 Hb) as (_ & Hh & He & Hd).
  fold last_ev in Hh.
  split_and!.
  - intros k.
    assert (burst delay t1 v1 (take k rest) = true) as Hbk.
    { clear -Hb. revert t1 v1 k Hb.
      induction rest as [|[t' v'] rest IH]; intros t v k Hb.
      - by destruct k.
      - destruct k as [|k]; [done|]. cbn [take burst] in *.
        rewrite !andb_true_iff in *. destruct Hb as [Hhd Htl].
        split; [done|]. by apply IH. }
    by destruct (burst_pending delay (take k rest) t1 v1 s1 Hv1 Hh1 Hbk)
      as (_ & _ & Hek & Hdk).
  - unfold sT, fire_due. rewrite Hh.
    destruct (last_ev.2) as [x|]; cbn [run_effect emission].
    + destruct (last_ev.1 + delay <=? T)%Z; cbn [emitted].
      * by rewrite He.
      * by rewrite He, app_nil_r.
    + rewrite He. by destruct (_ <=? _)%Z; rewrite app_nil_r.
  - intros x Hx HT. unfold sT, fire_due. rewrite Hh, Hx. cbn [run_effect].
    destruct (Z.leb_spec (last_ev.1 + delay) T); [done|lia].
  - intros Hdef Hnone.
    destruct (render_defined delay t1 v1 s Hdef Hnone) as [Hdef1 Hnone1].
    destruct (renders_never_emit_undefined delay rest s1 Hdef1 Hnone1)
      as [Hdef2 Hnone2].
    by destruct (fire_due_defined T _ Hdef2 Hnone2).
Qed.

Lemma C9_trailing_edge_witness :
  emitted
    (fire_due 1000
       (renders 300 [(100%Z, Some "fi"); (250%Z, Some "fid")]
          (render 300 0 (Some "f") (mount 300 (-1000) (Some "")))))
  = [Some ""; Some "fid"].
Proof.
  destruct (C9_trailing_edge 300 (mount 300 (-1000) (Some "")) 0 (Some "f")
              [(100%Z, Some "fi"); (250%Z, Some "fid")] 1000
              ltac:(discriminate) eq_refl) as (_ & H & _).
  rewrite H. reflexivity.
Defined.

(** * Further properties of the code *)

(** ** Navigation *)

Lemma first_occurrence (dogs : list Dog) (id : option string) :
  Forall (λ d, chipNumber d ≠ id) dogs ∨
  ∃ i d, dogs !! i = Some d ∧ chipNumber d = id ∧
         ∀ j d', (j < i)%nat → dogs !! j = Some d' → chipNumber d' ≠ id.
Proof.
  induction dogs as [|a dogs IH]; [by left|].
  destruct (decide (chipNumber a = id)) as [Ha|Ha].
  - right. exists 0%nat, a. split_and!; [done..|]. intros j d' Hj. lia.
  - destruct IH as [IH|(i & d & Hi & Hd & Hbefore)].
    + left. by constructor.
    + right. exists (S i), d. split_and!; [done..|].
      intros [|j] d' Hj Hd'.
      * by injection Hd' as <-.
      * apply (Hbefore j); [lia|done].
Qed.

Lemma NoDup_first_occurrence (dogs : list Dog) (i : nat) (d : Dog) :
  NoDup (chipNumber <$> dogs) → dogs !! i = Some d →
  ∀ j d', (j < i)%nat → dogs !! j = Some d' → chipNumber d' ≠ chipNumber d.
Proof.
  intros Hnd Hi j d' Hj Hd' Heq.
  assert ((chipNumber <$> dogs) !! i = Some (chipNumber d)) as H1
    by (by rewrite list_lookup_fmap, Hi).
  assert ((chipNumber <$> dogs) !! j = Some (chipNumber d)) as H2
    by (by rewrite list_lookup_fmap, Hd', <- Heq).
  pose proof (NoDup_lookup _ _ _ _ Hnd H1 H2). lia.
Qed.

Lemma setupNavigation_is_Some (dogs : list Dog) (id : option string) :
  is_Some (setupNavigation dogs id).
Proof.
  destruct (first_occurrence dogs id) as [Hnone|(i & d & Hi & <- & Hfirst)].
  - rewrite (setupNavigation_not_found dogs id Hnone). eauto.
  - rewrite (setupNavigation_found dogs i d Hi Hfirst). eauto.
Qed.

(** X1.  The index reads of [setupNavigation] are always in range: for every
    roster of dog records and every identifier, found or not, [dogs[dogIndex -
    1]] and [dogs[dogIndex + 1]] are read only at positions inside the roster,
    so neither read yields [undefined]. *)
Theorem X1_setupNavigation_in_bounds (dogs : list Dog) (id : option string) :
  ∃ n, setupNavigation dogs id = Some n.
Proof. exact (setupNavigation_is_Some dogs id). Qed.

(** X2.  For an identifier that no dog of the roster carries,
    [setupNavigation] sets previous to [null]; next is [null] only on the
    empty roster and otherwise the chip number of the first dog. *)
Theorem X2_setupNavigation_unknown_id (dogs : list Dog) (id : option string) :
  Forall (λ d, chipNumber d ≠ id) dogs →
  ∃ n, setupNavigation dogs id = Some n ∧
       prevDogId n = NavNull ∧
       nextDogId n = match dogs with
                     | [] => NavNull
                     | first :: _ => NavId (chipNumber first)
                     end.
Proof.
  intros Hnone. eexists. split; [by apply setupNavigation_not_found|done].
Qed.

Lemma X2_setupNavigation_unknown_id_witness :
  ∃ n, setupNavigation [fido; rex] (Some "C3") = Some n ∧
       prevDogId n = NavNull ∧ nextDogId n = NavId (Some "B2").
Proof.
  apply (X2_setupNavigation_unknown_id [fido; rex] (Some "C3")).
  repeat constructor; discriminate.
Defined.

(** X3.  In a roster whose chip numbers are pairwise distinct, next and
    previous undo each other: if [d'] comes right after [d], then the next
    identifier computed for [d] is the chip number of [d'], and the previous
    identifier computed for [d'] is the chip number of [d]. *)
Theorem X3_next_then_previous (dogs : list Dog) (i : nat) (d d' : Dog) :
  NoDup (chipNumber <$> dogs) →
  dogs !! i = Some d → dogs !! S i = Some d' →
  ∃ n n',
    setupNavigation dogs (chipNumber d) = Some n ∧
    nextDogId n = NavId (chipNumber d') ∧
    setupNavigation dogs (chipNumber d') = Some n' ∧
    prevDogId n' = NavId (chipNumber d).
Proof.
  intros Hnd Hi Hi'.
  pose proof (setupNavigation_found dogs i d Hi
                (NoDup_first_occurrence dogs i d Hnd Hi)) as Hn.
  pose proof (setupNavigation_found dogs (S i) d' Hi'
                (NoDup_first_occurrence dogs (S i) d' Hnd Hi')) as Hn'.
  eexists _, _. split; [exact Hn|]. split; [by cbn; rewrite Hi'|].
  split; [exact Hn'|]. by cbn; rewrite Hi.
Qed.

Lemma X3_next_then_previous_witness :
  ∃ n n',
    setupNavigation roster12 (Some "A1") = Some n ∧
    nextDogId n = NavId (Some "B2") ∧
    setupNavigation roster12 (Some "B2") = Some n' ∧
    prevDogId n' = NavId (Some "A1").
Proof.
  apply (X3_next_then_previous roster12 0 rex fido); [|reflexivity..].
  change (NoDup [Some "A1"; Some "B2"]).
  apply NoDup_cons. split; [|apply NoDup_singleton].
  intros [=]%list_elem_of_singleton.
Defined.

(** ** The detail view *)

Lemma find_first {A} (p : A → bool) (l : list A) (i : nat) (x : A) :
  l !! i = Some x → p x = true →
  (∀ j y, (j < i)%nat → l !! j = Some y → p y = false) →
  List.find p l = Some x.
Proof.
  revert i. induction l as [|a l IH]; intros i Hi Hx Hbefore; [done|].
  destruct i as [|i]; simpl in *.
  - injection Hi as ->. by rewrite Hx.
  - rewrite (Hbefore 0%nat a) by (done || lia).
    apply (IH i Hi Hx). intros j y Hj Hy. apply (Hbefore (S j) y); [lia|done].
Qed.

Lemma find_absent {A} (p : A → bool) (l : list A) :
  Forall (λ x, p x = false) l → List.find p l = None.
Proof. induction 1 as [|x l Hx _ IH]; simpl; [done|]. by rewrite Hx. Qed.

Lemma find_chip_first (records : list Dog) (i : nat) (d : Dog) :
  records !! i = Some d →
  (∀ j d', (j < i)%nat → records !! j = Some d' → chipNumber d' ≠ chipNumber d) →
  List.find (λ x, bool_decide (chipNumber x = chipNumber d)) records = Some d.
Proof.
  intros Hi Hfirst. apply (find_first _ records i d Hi).
  - by apply bool_decide_eq_true.
  - intros j y Hj Hy. apply bool_decide_eq_false. eauto.
Qed.

Lemma find_chip_absent (records : list Dog) (chip : option string) :
  Forall (λ d, chipNumber d ≠ chip) records →
  List.find (λ x, bool_decide (chipNumber x = chip)) records = None.
Proof.
  intros H. apply find_absent. eapply Forall_impl; [exact H|].
  intros d Hd. by apply bool_decide_eq_false.
Qed.

Ltac run_fetchDogData :=
  unfold DetailPage.fetchDogData, DetailPage.try_catch_finally,
    DetailPage.fetchDogData_try, DetailPage.fetchDogData_catch,
    DetailPage.runSetupNavigation;
  cbn -[DetailPage.fetch_error_message DetailPage.not_found_message
        setupNavigation List.find];
  unfold mbind, DetailPage.Fetch_bind;
  cbn -[DetailPage.fetch_error_message DetailPage.not_found_message
        setupNavigation List.find].



(** X4.  When the roster arrives but holds no dog with the requested chip
    number, [fetchDogData] ends with the error "Dog with ID <id> not found";
    the roster it fetched is stored all the same, while the dog shown and the
    two adjacent identifiers keep their earlier values, so on a fresh page
    both stay [null]. *)
Theorem X4_fetchDogData_not_found (chip : option string) (status : Z)
    (records : list Dog) (s : DetailPage.state) :
  falsy_id chip = false → res_ok status = true →
  Forall (λ d, chipNumber d ≠ chip) records →
  DetailPage.fetchDogData chip (FetchResolved status (inr (JsonArray records))) s
    = (inr (),
       {| DetailPage.dog := DetailPage.dog s;
          DetailPage.allDogs := records;
          DetailPage.isLoading := false;
          DetailPage.error := Some (DetailPage.not_found_message chip);
          DetailPage.navigation := DetailPage.navigation s |}).
Proof.
  intros Hid Hok Hnone. run_fetchDogData. rewrite Hid.
  run_fetchDogData. rewrite Hok. run_fetchDogData.
  rewrite (find_chip_absent records chip Hnone). done.
Qed.

Lemma X4_fetchDogData_not_found_witness :
  DetailPage.fetchDogData (Some "ZZ")
    (FetchResolved 200 (inr (JsonArray roster12))) DetailPage.init
  = (inr (),
     {| DetailPage.dog := None;
        DetailPage.allDogs := roster12;
        DetailPage.isLoading := false;
        DetailPage.error := Some "Dog with ID ZZ not found";
        DetailPage.navigation :=
          {| prevDogId := NavNull; nextDogId := NavNull |} |}).
Proof.
  apply (X4_fetchDogData_not_found (Some "ZZ") 200 roster12 DetailPage.init);
    [reflexivity | reflexivity |].
  repeat constructor; discriminate.
Defined.

(** X5.  When the roster arrives and holds the requested chip number, first
    at position [i], [fetchDogData] ends without error with that record as
    the dog shown, the roster stored, loading off, and the adjacent
    identifiers those [setupNavigation] computes for the roster. *)
Theorem X5_fetchDogData_found (status : Z) (records : list Dog) (i : nat)
    (d : Dog) (s : DetailPage.state) :
  falsy_id (chipNumber d) = false → res_ok status = true →
  records !! i = Some d →
  (∀ j d', (j < i)%nat → records !! j = Some d' → chipNumber d' ≠ chipNumber d) →
  ∃ n,
    setupNavigation records (chipNumber d) = Some n ∧
    DetailPage.fetchDogData (chipNumber d)
      (FetchResolved status (inr (JsonArray records))) s
    = (inr (),
       {| DetailPage.dog := Some d;
          DetailPage.allDogs := records;
          DetailPage.isLoading := false;
          DetailPage.error := None;
          DetailPage.navigation := n |}).
Proof.
  intros Hid Hok Hi Hfirst.
  eexists. split; [by apply (setupNavigation_found records i d)|].
  run_fetchDogData. rewrite Hid. run_fetchDogData. rewrite Hok.
  run_fetchDogData. rewrite (find_chip_first records i d Hi Hfirst).
  run_fetchDogData. rewrite (setupNavigation_found records i d Hi Hfirst).
  done.
Qed.

Lemma X5_fetchDogData_found_witness :
  ∃ n,
    setupNavigation roster12 (Some "B2") = Some n ∧
    DetailPage.fetchDogData (Some "B2")
      (FetchResolved 200 (inr (JsonArray roster12))) DetailPage.init
    = (inr (),
       {| DetailPage.dog := Some fido;
          DetailPage.allDogs := roster12;
          DetailPage.isLoading := false;
          DetailPage.error := None;
          DetailPage.navigation := n |}).
Proof.
  apply (X5_fetchDogData_found 200 roster12 1 fido DetailPage.init);
    [reflexivity | reflexivity | reflexivity |].
  intros j d' Hj Hd'. destruct j as [|j]; [|lia].
  injection Hd' as <-. discriminate.
Defined.

(** X6.  For every route parameter and every response with a roster of dog
    records (a rejected request, a status outside 200-299, a body that does
    not parse, a value that is not an array, or an array of records),
    [fetchDogData] settles (nothing is rethrown) with loading off, and
    whenever it leaves an error the dog shown and the adjacent identifiers
    are as before.  With an empty or missing parameter it only records
    "Invalid dog ID". *)
Theorem X6_fetchDogData_settles (chip : option string) (net : response)
    (s : DetailPage.state) :
  ∃ s',
    DetailPage.fetchDogData chip net s = (inr (), s') ∧
    DetailPage.isLoading s' = false ∧
    (DetailPage.error s' ≠ None →
       DetailPage.dog s' = DetailPage.dog s ∧
       DetailPage.navigation s' = DetailPage.navigation s) ∧
    (chip = None ∨ chip = Some "" →
       s' = {| DetailPage.dog := DetailPage.dog s;
               DetailPage.allDogs := DetailPage.allDogs s;
               DetailPage.isLoading := false;
               DetailPage.error := Some "Invalid dog ID";
               DetailPage.navigation := DetailPage.navigation s |}).
Proof.
  destruct (falsy_id chip) eqn:Hid.
  - run_fetchDogData. rewrite Hid. run_fetchDogData.
    eexists. split; [reflexivity|]. by split_and!.
  - assert (¬ (chip = None ∨ chip = Some "")) as Hvalid.
    { intros H%falsy_id_true. congruence. }
    destruct net as [err | status [err | [records|]]].
    + run_fetchDogData. rewrite Hid. run_fetchDogData.
      eexists. split; [reflexivity|]. by split_and!.
    + run_fetchDogData. rewrite Hid. run_fetchDogData.
      destruct (res_ok status); run_fetchDogData;
        (eexists; split; [reflexivity|]; by split_and!).
    + run_fetchDogData. rewrite Hid. run_fetchDogData.
      destruct (res_ok status); run_fetchDogData.
      2:{ eexists. split; [reflexivity|]. by split_and!. }
      destruct (List.find _ records) as [found|]; run_fetchDogData.
      2:{ eexists. split; [reflexivity|]. by split_and!. }
      destruct (setupNavigation_is_Some records chip) as [n ->].
      run_fetchDogData.
      eexists. split; [reflexivity|]. by split_and!.
    + run_fetchDogData. rewrite Hid. run_fetchDogData.
      destruct (res_ok status); run_fetchDogData;
        (eexists; split; [reflexivity|]; by split_and!).
Qed.

Lemma X6_fetchDogData_settles_witness :
  ∃ s',
    DetailPage.fetchDogData (Some "") (FetchResolved 200 (inr (JsonArray roster12)))
      DetailPage.init = (inr (), s') ∧
    DetailPage.error s' = Some "Invalid dog ID" ∧
    DetailPage.allDogs s' = [].
Proof.
  destruct (X6_fetchDogData_settles (Some "")
              (FetchResolved 200 (inr (JsonArray roster12))) DetailPage.init)
    as (s' & Hrun & _ & _ & Hinv).
  exists s'. split; [exact Hrun|].
  rewrite (Hinv (or_intror eq_refl)). split; reflexivity.
Defined.

Lemma nav_disabled_from_option (dogs : list Dog) (j : nat) :
  Forall (λ x, falsy_id (chipNumber x) = false) dogs →
  DetailPage.nav_disabled
    (from_option (λ d', NavId (chipNumber d')) NavNull (dogs !! j)) = true ↔
  (List.length dogs ≤ j)%nat.
Proof.
  intros Hids. destruct (dogs !! j) as [dj|] eqn:Hj; simpl.
  - rewrite (proj1 (Forall_lookup _ dogs) Hids j dj Hj).
    apply lookup_lt_Some in Hj. split; [done|lia].
  - apply lookup_ge_None in Hj. done.
Qed.

(** X7.  On a roster in which every dog has a non-empty chip number, after
    [setupNavigation] for the dog first found at position [i] the Previous
    button is disabled exactly when the dog is the first of the roster and
    the Next button exactly when it is the last; an enabled Next button leads
    to the page of the dog at position [i + 1]. *)
Theorem X7_navigation_buttons (dogs : list Dog) (i : nat) (d : Dog) :
  Forall (λ x, falsy_id (chipNumber x) = false) dogs →
  dogs !! i = Some d →
  (∀ j d', (j < i)%nat → dogs !! j = Some d' → chipNumber d' ≠ chipNumber d) →
  ∃ n,
    setupNavigation dogs (chipNumber d) = Some n ∧
    (DetailPage.nav_disabled (prevDogId n) = true ↔ i = 0%nat) ∧
    (DetailPage.nav_disabled (nextDogId n) = true ↔ S i = length dogs) ∧
    (∀ d', dogs !! S i = Some d' →
       DetailPage.nav_target (nextDogId n) =
         Some ("/dogs/" +:+ prop_key (chipNumber d'))).
Proof.
  intros Hids Hi Hfirst. eexists.
  split; [by apply (setupNavigation_found dogs i d)|].
  pose proof (lookup_lt_Some _ _ _ Hi) as Hlen.
  cbn [prevDogId nextDogId]. split_and!.
  - destruct i as [|j]; [done|].
    rewrite (nav_disabled_from_option dogs j Hids). split; [lia|done].
  - rewrite (nav_disabled_from_option dogs (S i) Hids). lia.
  - intros d' Hd'. rewrite Hd'. cbn [from_option].
    unfold DetailPage.nav_target. cbn [DetailPage.nav_disabled].
    by rewrite (proj1 (Forall_lookup _ dogs) Hids (S i) d' Hd').
Qed.

Lemma X7_navigation_buttons_witness :
  ∃ n,
    setupNavigation roster12 (Some "A1") = Some n ∧
    DetailPage.nav_disabled (prevDogId n) = true ∧
    DetailPage.nav_target (nextDogId n) = Some "/dogs/B2".
Proof.
  destruct (X7_navigation_buttons roster12 0 rex) as (n & Hn & Hprev & _ & Hnext).
  - repeat constructor.
  - reflexivity.
  - intros j d' Hj. lia.
  - exists n. split; [exact Hn|]. split.
    + by apply Hprev.
    + exact (Hnext fido eq_refl).
Defined.

(** X8.  For a dog with a non-empty chip number and a boolean (or absent)
    [present] field, the toggle button does what its label says: after a
    click under "Mark as Absent" the page shows the dog as absent, after a
    click under "Mark as Present" as present, and the label has changed. *)
Theorem X8_toggle_label (d : Dog) (s : store) :
  falsy_id (chipNumber d) = false → boolean_or_missing (present d) →
  let s' := toggleStatus (Some d) s in
  (DetailPage.toggle_label (changedDogs s) d = "Mark as Absent" →
     DogDetails.status (changedDogs s') d = "absent") ∧
  (DetailPage.toggle_label (changedDogs s) d = "Mark as Present" →
     DogDetails.status (changedDogs s') d = "present") ∧
  DetailPage.toggle_label (changedDogs s') d ≠
    DetailPage.toggle_label (changedDogs s) d.
Proof.
  intros Hid Hb s'.
  assert (∀ M, DogDetails.status M d = DogDetails.currentStatus M d) as Hst.
  { intros M. unfold DogDetails.status, DogDetails.currentStatus.
    by rewrite (truthy_boolean_or_missing _ Hb). }
  assert (DogDetails.status (changedDogs s') d =
          PStr (flip_status (DogDetails.status (changedDogs s) d))) as Hs'.
  { unfold s'. rewrite toggleStatus_changedDogs, Hid, !Hst.
    apply currentStatus_insert. }
  unfold DetailPage.toggle_label. rewrite Hs'. unfold flip_status.
  destruct (strict_eq_str _ STATUS.PRESENT); simpl; split_and!; done.
Qed.

Lemma X8_toggle_label_witness :
  DetailPage.toggle_label ∅ rex = "Mark as Absent" ∧
  DogDetails.status (changedDogs (toggleStatus (Some rex) init_store)) rex
    = "absent".
Proof.
  split; [reflexivity|].
  destruct (X8_toggle_label rex init_store eq_refl I) as (H & _).
  exact (H eq_refl).
Defined.

(** Without the boolean the label can mislead: a truthy [present] that is
    not [true] shows "Mark as Absent", yet the click stores "present". *)
Example toggle_label_on_non_boolean :
  let d := {| chipNumber := Some "A1"; name := Some "Rex"; present := JNum 1 |} in
  DetailPage.toggle_label ∅ d = "Mark as Absent" ∧
  DogDetails.status (changedDogs (toggleStatus (Some d) init_store)) d
    = "present".
Proof. split; reflexivity. Qed.

(** ** The overlay store *)

Lemma updateStatus_changedDogs (chip : option string) (st : string) (s : store) :
  changedDogs (updateStatus chip st s).2 =
    if falsy_id chip then changedDogs s
    else <[prop_key chip := st]> (changedDogs s).
Proof. unfold updateStatus. by destruct (falsy_id chip). Qed.

Lemma status_insert_eq (M : overlay) (k st : string) (d : Dog) :
  prop_key (chipNumber d) = k →
  DogList.status (<[k := st]> M) d = st ∧
  DogDetails.status (<[k := st]> M) d = st.
Proof.
  intros <-. unfold DogList.status, DogDetails.status.
  split; apply overlay_or_own, lookup_insert_eq.
Qed.

Lemma status_insert_ne (M : overlay) (k st : string) (d : Dog) :
  prop_key (chipNumber d) ≠ k →
  DogList.status (<[k := st]> M) d = DogList.status M d ∧
  DogDetails.status (<[k := st]> M) d = DogDetails.status M d.
Proof.
  intros Hne. unfold DogList.status, DogDetails.status, overlay_or, js_in,
    js_get.
  by rewrite lookup_insert_ne.
Qed.

(** X9.  After [updateStatus] on a non-empty identifier, both views show the
    new status for every dog carrying that identifier, and show what they
    showed before for every other dog. *)
Theorem X9_updateStatus_then_status (id newStatus : string) (s : store)
    (d : Dog) :
  id ≠ "" →
  let M' := changedDogs (updateStatus (Some id) newStatus s).2 in
  (prop_key (chipNumber d) = id →
     DogList.status M' d = newStatus ∧ DogDetails.status M' d = newStatus) ∧
  (prop_key (chipNumber d) ≠ id →
     DogList.status M' d = DogList.status (changedDogs s) d ∧
     DogDetails.status M' d = DogDetails.status (changedDogs s) d).
Proof.
  intros Hid M'. unfold M'. rewrite updateStatus_changedDogs.
  assert (falsy_id (Some id) = false) as -> by (apply falsy_id_false; eauto).
  cbn [prop_key]. split.
  - apply status_insert_eq.
  - apply status_insert_ne.
Qed.

Lemma X9_updateStatus_then_status_witness :
  DogList.status (changedDogs (updateStatus (Some "B2") "present" init_store).2)
    fido = "present" ∧
  DogList.status (changedDogs (updateStatus (Some "B2") "present" init_store).2)
    rex = "present".
Proof.
  destruct (X9_updateStatus_then_status "B2" "present" init_store fido
              ltac:(discriminate)) as [Hsame _].
  destruct (X9_updateStatus_then_status "B2" "present" init_store rex
              ltac:(discriminate)) as [_ Hother].
  split.
  - exact (proj1 (Hsame eq_refl)).
  - rewrite (proj1 (Hother ltac:(discriminate))). reflexivity.
Defined.

(** X10.  Writes to the overlay are last-write-wins per identifier and
    independent across identifiers: a second [updateStatus] on the same
    identifier leaves the map it would have left alone, and two updates on
    different identifiers give the same map in either order. *)
Theorem X10_updateStatus_order (chip1 chip2 : option string) (a b : string)
    (s : store) :
  changedDogs (updateStatus chip1 b (updateStatus chip1 a s).2).2 =
    changedDogs (updateStatus chip1 b s).2 ∧
  (chip1 ≠ chip2 →
     changedDogs (updateStatus chip1 a (updateStatus chip2 b s).2).2 =
     changedDogs (updateStatus chip2 b (updateStatus chip1 a s).2).2).
Proof.
  rewrite !updateStatus_changedDogs. split.
  - destruct (falsy_id chip1); [done|]. apply insert_insert_eq.
  - intros Hne.
    destruct (falsy_id chip1) eqn:H1, (falsy_id chip2) eqn:H2; try done.
    apply falsy_id_false in H1 as (id1 & -> & _).
    apply falsy_id_false in H2 as (id2 & -> & _).
    cbn [prop_key]. apply insert_insert_ne. congruence.
Qed.

Lemma X10_updateStatus_order_witness :
  changedDogs (updateStatus (Some "A1") "absent"
                 (updateStatus (Some "B2") "present" init_store).2).2 =
  changedDogs (updateStatus (Some "B2") "present"
                 (updateStatus (Some "A1") "absent" init_store).2).2.
Proof.
  destruct (X10_updateStatus_order (Some "A1") (Some "B2") "absent" "present"
              init_store) as [_ H].
  apply H. discriminate.
Defined.

Lemma step_keeps_entries (s : store) (a : action) (k : string) :
  is_Some (changedDogs s !! k) → is_Some (changedDogs (step s a) !! k).
Proof.
  intros Hk. destruct a as [[d|]|dt|]; cbn [step]; try done.
  rewrite toggleStatus_changedDogs. destruct (falsy_id _); [done|].
  rewrite lookup_insert. by case_decide.
Qed.

Lemma step_new_entry (s : store) (a : action) (k : string) :
  is_Some (changedDogs (step s a) !! k) →
  is_Some (changedDogs s !! k) ∨
  ∃ d, a = Toggle (Some d) ∧ chipNumber d = Some k ∧ k ≠ "".
Proof.
  destruct a as [[d|]|dt|]; cbn [step]; try (by left).
  rewrite toggleStatus_changedDogs.
  destruct (falsy_id (chipNumber d)) eqn:Hid; [by left|].
  apply falsy_id_false in Hid as (id & Hchip & Hne).
  rewrite Hchip. cbn [prop_key]. rewrite lookup_insert.
  case_decide as Hk; [|by left].
  intros _. right. exists d. by subst.
Qed.

(** X11.  The overlay only grows, and only by toggles: no action removes an
    entry, and after any sequence of actions from the store as mounted every
    entry sits under the non-empty chip number of a dog that was toggled. *)
Theorem X11_overlay_entries (acts : list action) (k : string) :
  (∀ s a, is_Some (changedDogs s !! k) →
          is_Some (changedDogs (step s a) !! k)) ∧
  (is_Some (changedDogs (run acts init_store) !! k) →
   ∃ d, Toggle (Some d) ∈ acts ∧ chipNumber d = Some k ∧ k ≠ "").
Proof.
  split; [intros s a; apply step_keeps_entries|].
  assert (∀ s, is_Some (changedDogs (run acts s) !! k) →
               is_Some (changedDogs s !! k) ∨
               ∃ d, Toggle (Some d) ∈ acts ∧ chipNumber d = Some k ∧ k ≠ "")
    as Hgen.
  { induction acts as [|a acts IH]; intros s Hk; [by left|].
    cbn [run foldl] in Hk.
    destruct (IH (step s a) Hk) as [Hstep|(d & Hin & Hd)].
    - destruct (step_new_entry s a k Hstep) as [Hs|(d & -> & Hd)];
        [by left|].
      right. exists d. split; [apply list_elem_of_here|done].
    - right. exists d. split; [by apply list_elem_of_further|done]. }
  intros Hk. destruct (Hgen init_store Hk) as [Hinit|Hd]; [|done].
  cbn in Hinit. rewrite lookup_empty in Hinit. by destruct Hinit.
Qed.

Lemma X11_overlay_entries_witness :
  ∃ d, Toggle (Some d) ∈ [Toggle (Some fido); Elapse 300; Toggle (Some rex)] ∧
       chipNumber d = Some "A1" ∧ "A1" ≠ "".
Proof.
  destruct (X11_overlay_entries
              [Toggle (Some fido); Elapse 300; Toggle (Some rex)] "A1")
    as [_ H].
  apply H. vm_compute. eauto.
Defined.

Lemma step_lastError (s : store) (a : action) :
  a ≠ ClearError →
  lastError (step s a) = lastError s ∨
  lastError (step s a) = Some "Invalid dog identifier".
Proof.
  intros Ha. destruct a as [[d|]|dt|]; cbn [step].
  - unfold toggleStatus, updateStatus.
    destruct (falsy_id (chipNumber d)); [by right|by left].
  - by left.
  - by left.
  - done.
Qed.

(** X12.  The store never clears its own error: along any sequence of
    toggles and clock ticks without [clearError], an error that is set stays
    set (as it was, or replaced by the message of a later rejected update);
    successful updates do not remove it. *)
Theorem X12_lastError_sticky (acts : list action) (s : store) :
  ClearError ∉ acts → is_Some (lastError s) →
  is_Some (lastError (run acts s)) ∧
  (lastError (run acts s) = lastError s ∨
   lastError (run acts s) = Some "Invalid dog identifier").
Proof.
  revert s. induction acts as [|a acts IH]; intros s Hno Hset.
  - split; [done|by left].
  - apply not_elem_of_cons in Hno as [Ha Hno].
    change (run (a :: acts) s) with (run acts (step s a)).
    assert (a ≠ ClearError) as Ha' by congruence.
    destruct (step_lastError s a Ha') as [Hstep|Hstep].
    + destruct (IH (step s a) Hno) as [IH1 IH2]; [by rewrite Hstep|].
      split; [done|]. by rewrite <- Hstep.
    + destruct (IH (step s a) Hno) as [IH1 IH2]; [by rewrite Hstep|].
      split; [done|]. right. destruct IH2 as [->| ->]; done.
Qed.

Lemma X12_lastError_sticky_witness :
  lastError
    (run [Toggle (Some rex); Elapse 300; Toggle (Some fido)]
       (toggleStatus (Some {| chipNumber := None; name := Some "Stray";
                              present := JBool true |}) init_store))
  = Some "Invalid dog identifier".
Proof.
  destruct (X12_lastError_sticky
              [Toggle (Some rex); Elapse 300; Toggle (Some fido)]
              (toggleStatus (Some {| chipNumber := None; name := Some "Stray";
                                     present := JBool true |}) init_store))
    as [_ [H|H]].
  - intros Hin. repeat (apply elem_of_cons in Hin as [Hin|Hin]; [done|]).
    by apply elem_of_nil in Hin.
  - by eexists.
  - rewrite H. reflexivity.
  - exact H.
Defined.

(** X13.  The busy flag follows the oldest pending timer, not the latest
    update: when a second update comes [g] ms (less than 300) after a first,
    the flag is off again [300 - g] ms after the second, before that update's
    own 300 ms have passed. *)
Theorem X13_busy_flag_cleared_early (id1 id2 a b : string) (s : store) (g : Z) :
  id1 ≠ "" → id2 ≠ "" → (0 ≤ g < UPDATE_DELAY)%Z →
  let s1 := (updateStatus (Some id1) a s).2 in
  let s2 := (updateStatus (Some id2) b (elapse g s1)).2 in
  isUpdating s2 = true ∧
  isUpdating (elapse (UPDATE_DELAY - g) s2) = false.
Proof.
  intros H1 H2 Hg s1 s2.
  assert (falsy_id (Some id1) = false) as Hf1 by (apply falsy_id_false; eauto).
  assert (falsy_id (Some id2) = false) as Hf2 by (apply falsy_id_false; eauto).
  unfold s2, s1, updateStatus. rewrite Hf1, Hf2. cbn [fst snd isUpdating].
  split; [done|]. apply elapse_clears. cbn [timeouts clock elapse].
  exists (clock s + UPDATE_DELAY)%Z. split; [|lia].
  apply elem_of_app. left. apply list_elem_of_In, filter_In. split.
  - apply in_or_app. right. by left.
  - apply negb_true_iff, Z.leb_gt. lia.
Qed.

Lemma X13_busy_flag_cleared_early_witness :
  isUpdating
    (elapse 100
       (updateStatus (Some "B2") "present"
          (elapse 200 (updateStatus (Some "A1") "absent" init_store).2)).2)
  = false.
Proof.
  destruct (X13_busy_flag_cleared_early "A1" "B2" "absent" "present"
              init_store 200) as [_ H];
    [discriminate | discriminate | unfold UPDATE_DELAY; lia |].
  exact H.
Defined.

(** ** The list view: filters, labels and the empty state *)

Lemma status_stored (M : overlay) (d : Dog) :
  overlay_wf M → inherited (prop_key (chipNumber d)) = false →
  ∃ st : string,
    DogList.status M d = PStr st ∧ (st = STATUS.PRESENT ∨ st = STATUS.ABSENT).
Proof.
  intros Hwf Hi. apply (currentStatus_stored M d); [|done]. intros v. apply Hwf.
Qed.

Lemma status_partition (M : overlay) (d : Dog) :
  overlay_wf M → inherited (prop_key (chipNumber d)) = false →
  status_test "present" M d = negb (status_test "absent" M d) ∧
  (status_label M d = "Present" ↔ status_test "present" M d = true) ∧
  (status_label M d = "Absent" ↔ status_test "absent" M d = true).
Proof.
  intros Hwf Hi. rewrite !status_test_eqb. unfold status_label.
  by destruct (status_stored M d Hwf Hi) as (st & -> & [-> | ->]).
Qed.

(** X14.  On an overlay that holds only stored statuses, and for dogs whose
    chip numbers are not names of inherited properties, the filters "present"
    and "absent" split the roster: every such dog passes exactly one of the
    two status tests, the card says "Present" for the one and "Absent" for
    the other, and the two filtered lists together are as long as the
    roster. *)
Theorem X14_present_absent_partition (M : overlay) (R : list Dog) :
  overlay_wf M →
  Forall (λ d, inherited (prop_key (chipNumber d)) = false) R →
  (∀ d, d ∈ R →
        status_test "present" M d = negb (status_test "absent" M d) ∧
        (status_label M d = "Present" ↔ status_test "present" M d = true) ∧
        (status_label M d = "Absent" ↔ status_test "absent" M d = true)) ∧
  (length (status_filter "present" M R) + length (status_filter "absent" M R)
   = length R)%nat.
Proof.
  intros Hwf Hkeys. split.
  - intros d Hd. apply (status_partition M d Hwf).
    by apply (proj1 (Forall_forall _ R) Hkeys).
  - unfold status_filter. induction Hkeys as [|d R Hd _ IH]; [done|].
    cbn [List.filter]. rewrite (proj1 (status_partition M d Hwf Hd)).
    destruct (status_test "absent" M d); cbn [negb length]; lia.
Qed.

Lemma X14_present_absent_partition_witness :
  overlay_wf {["A1" := "absent"]} ∧
  (length (status_filter "present" {["A1" := "absent"]} roster12) +
   length (status_filter "absent" {["A1" := "absent"]} roster12) = 2)%nat.
Proof.
  assert (overlay_wf {["A1" := "absent"]}) as Hwf.
  { apply overlay_wf_insert; [apply overlay_wf_empty|by right]. }
  split; [exact Hwf|].
  apply (X14_present_absent_partition _ roster12 Hwf).
  repeat constructor.
Defined.

(** An entry outside the two stored statuses takes its dog out of both
    filtered lists while the card reads "Absent"; so does a chip number that
    names an inherited property, as long as the dog has no entry. *)
Example partition_needs_stored_statuses :
  status_filter "present" {["A1" := "all"]} [rex] = [] ∧
  status_filter "absent" {["A1" := "all"]} [rex] = [] ∧
  status_label {["A1" := "all"]} rex = "Absent".
Proof. split_and!; reflexivity. Qed.

Example partition_needs_own_keys :
  status_filter "present" ∅ [dog_constructor] = [] ∧
  status_filter "absent" ∅ [dog_constructor] = [] ∧
  status_filter "present" {["constructor" := "present"]} [dog_constructor]
    = [dog_constructor].
Proof. split_and!; reflexivity. Qed.

(** X15.  On such an overlay, a toggle of a dog with a non-empty chip number
    that is not the name of an inherited property moves it from one filtered
    list to the other (it passes "present" after exactly when it passed
    "absent" before), and a toggle of any dog with a non-empty chip number
    changes the outcome of no status test for a dog with another chip
    number. *)
Theorem X15_toggle_moves_between_filters (d : Dog) (s : store) :
  overlay_wf (changedDogs s) → falsy_id (chipNumber d) = false →
  let M' := changedDogs (toggleStatus (Some d) s) in
  (inherited (prop_key (chipNumber d)) = false →
     status_test "present" M' d = status_test "absent" (changedDogs s) d ∧
     status_test "absent" M' d = status_test "present" (changedDogs s) d) ∧
  (∀ d' f, prop_key (chipNumber d') ≠ prop_key (chipNumber d) →
           status_test f M' d' = status_test f (changedDogs s) d').
Proof.
  intros Hwf Hid M'.
  assert (DogList.status M' d =
          PStr (flip_status (DogList.status (changedDogs s) d))) as Hflip.
  { unfold M'. rewrite toggleStatus_changedDogs, Hid.
    apply (currentStatus_insert (changedDogs s) d). }
  split.
  - intros Hi. rewrite !status_test_eqb, Hflip.
    by destruct (status_stored (changedDogs s) d Hwf Hi)
      as (st & -> & [-> | ->]).
  - intros d' f Hne. rewrite !status_test_eqb. unfold M'.
    rewrite toggleStatus_changedDogs, Hid.
    by rewrite (proj1 (status_insert_ne (changedDogs s) _ _ d' Hne)).
Qed.

Lemma X15_toggle_moves_between_filters_witness :
  status_filter "absent" (changedDogs (toggleStatus (Some rex) init_store))
    roster12 = [rex; fido].
Proof.
  destruct (X15_toggle_moves_between_filters rex init_store overlay_wf_empty
              eq_refl) as (Hmoves & Hother).
  destruct (Hmoves eq_refl) as [_ Habs].
  unfold status_filter. cbn [roster12 List.filter].
  rewrite Habs, (Hother fido "absent" ltac:(discriminate)). reflexivity.
Defined.

Lemma string_app_assoc (a b c : string) : (a +:+ b) +:+ c = a +:+ b +:+ c.
Proof.
  induction a as [|x a IH]; [done|].
  change (String x ((a +:+ b) +:+ c) = String x (a +:+ b +:+ c)).
  by rewrite IH.
Qed.

Lemma includes_narrower (s t pre post : string) :
  includes s (pre +:+ t +:+ post) = true → includes s t = true.
Proof.
  rewrite !includes_spec. intros (a & b & ->).
  exists (a +:+ pre), (post +:+ b).
  by rewrite !string_app_assoc.
Qed.

Lemma filter_filter_implied {A} (p q : A → bool) (l : list A) :
  (∀ x, q x = true → p x = true) →
  List.filter q l = List.filter q (List.filter p l).
Proof.
  intros Himp. induction l as [|x l IH]; [done|]. cbn [List.filter].
  destruct (p x) eqn:Hp; cbn [List.filter].
  - destruct (q x); by rewrite IH.
  - destruct (q x) eqn:Hq; [|done]. apply Himp in Hq. congruence.
Qed.

(** X16.  Typing more only narrows the list, for names and terms of ASCII
    characters: when the term [t] occurs inside the term [t'], the list shown
    for [t'] is what the name test for [t'] keeps of the list shown for [t],
    hence a subsequence of it. *)
Theorem X16_longer_term_narrows (R : list Dog) (t pre post : string)
    (f : string) (M : overlay) :
  is_ascii pre = true → is_ascii t = true → is_ascii post = true →
  Forall (λ d, is_ascii (or_empty (name d)) = true) R →
  let t' := pre +:+ t +:+ post in
  filteredDogs R (Some t') f M =
    name_filter (Some t') (filteredDogs R (Some t) f M) ∧
  sublist (filteredDogs R (Some t') f M) (filteredDogs R (Some t) f M).
Proof.
  intros _ _ _ _ t'.
  assert (filteredDogs R (Some t') f M =
          name_filter (Some t') (filteredDogs R (Some t) f M)) as Heq.
  { unfold filteredDogs.
    rewrite <- (name_status_filter_comm (Some t') f M (name_filter (Some t) R)).
    f_equal. unfold name_filter. apply filter_filter_implied.
    intros d. unfold name_test, t'. cbn [or_empty].
    rewrite !toLowerCase_app. apply includes_narrower. }
  split; [exact Heq|]. rewrite Heq. apply filter_sublist.
Qed.

Lemma X16_longer_term_narrows_witness :
  sublist (filteredDogs roster12 (Some "fid") "all" ∅)
    (filteredDogs roster12 (Some "i") "all" ∅).
Proof.
  apply (X16_longer_term_narrows roster12 "i" "f" "d" "all" ∅);
    [reflexivity | reflexivity | reflexivity |].
  repeat constructor.
Defined.

Lemma lower_ascii_idempotent (c : ascii) :
  lower_ascii (lower_ascii c) = lower_ascii c.
Proof. destruct c as [[] [] [] [] [] [] [] []]; reflexivity. Qed.

Lemma toLowerCase_idempotent (s : string) :
  toLowerCase (toLowerCase s) = toLowerCase s.
Proof.
  induction s as [|c s IH]; [done|].
  cbn [toLowerCase]. by rewrite lower_ascii_idempotent, IH.
Qed.

(** X17.  The search ignores the case of the term: two terms with the same
    lower-case form give the same visible list, so a term can be replaced by
    its lower-case form. *)
Theorem X17_term_case_ignored (R : list Dog) (t t' : string) (f : string)
    (M : overlay) :
  toLowerCase t = toLowerCase t' →
  filteredDogs R (Some t) f M = filteredDogs R (Some t') f M ∧
  filteredDogs R (Some (toLowerCase t)) f M = filteredDogs R (Some t) f M.
Proof.
  intros Heq.
  assert (∀ a b, toLowerCase a = toLowerCase b →
                 filteredDogs R (Some a) f M = filteredDogs R (Some b) f M)
    as Hsame.
  { intros a b Hab. unfold filteredDogs, name_filter. f_equal.
    apply filter_ext. intros d. unfold name_test. cbn [or_empty].
    by rewrite Hab. }
  split; [by apply Hsame|]. apply Hsame, toLowerCase_idempotent.
Qed.

Lemma X17_term_case_ignored_witness :
  filteredDogs roster12 (Some "rEX") "all" ∅ = [rex].
Proof.
  destruct (X17_term_case_ignored roster12 "rEX" "rex" "all" ∅ eq_refl)
    as [-> _].
  reflexivity.
Defined.

Lemma filteredDogs_no_criteria (R : list Dog) (term : option string)
    (M : overlay) :
  falsy_id term = true → filteredDogs R term STATUS.ALL M = R.
Proof.
  intros Hterm%falsy_id_true%or_empty_empty.
  unfold filteredDogs. rewrite status_filter_all. unfold name_filter.
  induction R as [|d R IH]; [done|]. cbn [List.filter].
  unfold name_test at 1. rewrite Hterm.
  change (toLowerCase "") with "". by rewrite includes_empty, IH.
Qed.

(** X18.  The empty state tells the truth: "No dogs are currently
    registered." appears exactly when loading is over, no search term and no
    status filter are active, and the roster itself is empty; and some
    message appears exactly when loading is over and no dog is visible. *)
Theorem X18_empty_message (loading : bool) (R : list Dog)
    (term : option string) (f : string) (M : overlay) :
  (empty_message loading (filteredDogs R term f M) term f =
     Some "No dogs are currently registered." ↔
   loading = false ∧ R = [] ∧ (term = None ∨ term = Some "") ∧ f = "all") ∧
  (is_Some (empty_message loading (filteredDogs R term f M) term f) ↔
   loading = false ∧ filteredDogs R term f M = []).
Proof.
  unfold empty_message. split.
  - destruct loading; cbn [negb andb]; [split; [done|by intros [? _]]|].
    destruct (falsy_id term) eqn:Hterm; cbn [negb orb].
    + destruct (String.eqb_spec f STATUS.ALL) as [->|Hf]; cbn [negb].
      * rewrite (filteredDogs_no_criteria R term M Hterm).
        apply falsy_id_true in Hterm.
        destruct R as [|d R]; cbn; [done|]. split; [done|by intros (_ & ? & _)].
      * destruct (length _ =? 0)%nat; (split; [done|by intros (_ & _ & _ & ?)]).
    + assert (¬ (term = None ∨ term = Some "")) as Hno.
      { intros H%falsy_id_true. congruence. }
      destruct (length _ =? 0)%nat; (split; [done|by intros (_ & _ & ? & _)]).
  - destruct loading; cbn [negb andb].
    + split; [by intros [? [=]]|by intros [? _]].
    + destruct (filteredDogs R term f M) as [|d l]; cbn.
      * split; [done|]. intros _. destruct (_ || _); eauto.
      * split; [by intros [? [=]]|by intros [_ ?]].
Qed.

(** X19.  How [fetchDogs] reports a failure it did not raise itself: a
    rejected request named "AbortError" (the 10 s timeout) ends with
    "Request timed out. Please try again."; any other rejected request, and a
    body that does not parse, ends with the message of the error, or with
    "Failed to load dogs" when that message is empty.  The roster is left as
    it was. *)
Theorem X19_fetchDogs_rejections (err : exn) (status : Z) (s : list_state) :
  let ends_with msg :=
    (inr (), {| dogs := dogs s; isLoading := false; error := Some msg |}) in
  (exn_name err = "AbortError" →
     fetchDogs (FetchRejected err) s =
       ends_with "Request timed out. Please try again.") ∧
  (exn_name err ≠ "AbortError" →
     fetchDogs (FetchRejected err) s =
       ends_with (if String.eqb (exn_message err) ""
                  then "Failed to load dogs" else exn_message err) ∧
     (res_ok status = true →
        fetchDogs (FetchResolved status (inl err)) s =
          ends_with (if String.eqb (exn_message err) ""
                     then "Failed to load dogs" else exn_message err))).
Proof.
  intros ends_with. unfold ends_with.
  unfold fetchDogs, try_catch_finally, fetchDogs_try, fetchDogs_catch.
  split.
  - intros Hname%String.eqb_eq.
    cbn -[String.eqb]. unfold mbind, Load_bind. cbn -[String.eqb].
    by rewrite Hname.
  - intros Hname%String.eqb_neq. split.
    + cbn -[String.eqb]. unfold mbind, Load_bind. cbn -[String.eqb].
      by rewrite Hname.
    + intros Hok. cbn -[String.eqb]. unfold mbind, Load_bind.
      cbn -[String.eqb]. rewrite Hok. cbn -[String.eqb]. by rewrite Hname.
Qed.

Lemma X19_fetchDogs_rejections_witness :
  error (fetchDogs (FetchRejected {| exn_name := "AbortError";
                                     exn_message := "The user aborted a request." |})
           init_list_state).2
    = Some "Request timed out. Please try again." ∧
  error (fetchDogs (FetchRejected {| exn_name := "TypeError"; exn_message := "" |})
           init_list_state).2
    = Some "Failed to load dogs".
Proof.
  destruct (X19_fetchDogs_rejections
              {| exn_name := "AbortError";
                 exn_message := "The user aborted a request." |} 200
              init_list_state) as [Habort _].
  destruct (X19_fetchDogs_rejections
              {| exn_name := "TypeError"; exn_message := "" |} 200
              init_list_state) as [_ Hother].
  split.
  - rewrite (Habort eq_refl). reflexivity.
  - rewrite (proj1 (Hother ltac:(discriminate))). reflexivity.
Defined.

(** X20.  A fetch starts from a clean slate: its outcome depends on the
    earlier state only through the roster, never through the earlier error or
    loading flag, and a fetch answered by a 2xx status and an array ends with
    exactly that array as roster, loading off and no error.  So a retry that
    succeeds leaves no trace of the failure before it. *)
Theorem X20_retry_recovers (net : response) (status : Z) (records : list Dog)
    (s : list_state) (loading : bool) (err : option string) :
  fetchDogs net {| dogs := dogs s; isLoading := loading; error := err |} =
    fetchDogs net s ∧
  (res_ok status = true →
     retry (FetchResolved status (inr (JsonArray records))) (fetchDogs net s).2
     = (inr (), {| dogs := records; isLoading := false; error := None |})).
Proof.
  split; [|intros Hok; by apply fetchDogs_success].
  unfold fetchDogs, try_catch_finally, fetchDogs_try, fetchDogs_catch.
  destruct net as [e | st [e | [rs|]]];
    cbn -[fetch_error_message]; unfold mbind, Load_bind;
    cbn -[fetch_error_message];
    repeat (match goal with
            | |- context [if ?b then _ else _] => destruct b
            end; cbn -[fetch_error_message]);
    reflexivity.
Qed.

Lemma X20_retry_recovers_witness :
  retry (FetchResolved 200 (inr (JsonArray roster12)))
    (fetchDogs (FetchResolved 500 (inr JsonOther)) init_list_state).2
  = (inr (), {| dogs := roster12; isLoading := false; error := None |}).
Proof.
  exact (proj2 (X20_retry_recovers (FetchResolved 500 (inr JsonOther)) 200
                  roster12 init_list_state true None) eq_refl).
Defined.

(** ** Status, toggles and filters off the inherited keys *)

(** X26.  After any sequence of toggles, clock ticks and [clearError] from
    the store as mounted, every value stored in the overlay is "present" or
    "absent"; the filter value "all" is never stored. *)
Theorem X26_stored_statuses (acts : list action) (k v : string) :
  changedDogs (run acts init_store) !! k = Some v →
  (v = "present" ∨ v = "absent") ∧ v ≠ "all".
Proof.
  intros Hkv.
  pose proof (run_overlay_wf acts init_store overlay_wf_empty k v Hkv) as Hv.
  split; [exact Hv|]. by destruct Hv as [-> | ->].
Qed.

Lemma X26_stored_statuses_witness :
  changedDogs
    (run [Toggle (Some rex); Toggle (Some dog_constructor);
          Toggle (Some fido); Elapse 300; Toggle (Some rex)] init_store)
    !! "constructor" = Some "present" ∧
  "present" ≠ "all".
Proof.
  split; [reflexivity|].
  apply (X26_stored_statuses
           [Toggle (Some rex); Toggle (Some dog_constructor);
            Toggle (Some fido); Elapse 300; Toggle (Some rex)]
           "constructor" "present").
  reflexivity.
Defined.

(** X27.  For every overlay and every dog whose chip number is not the name
    of a property inherited from [Object.prototype], the status of the list
    view is the overlay entry for the chip number when there is one, and
    otherwise "present" exactly when [present] is [true]; the toggle handler
    reads the same status, and so does the detail page when [present] is a
    boolean or absent. *)
Theorem X27_status_off_inherited_keys (M : overlay) (dog : Dog) :
  inherited (prop_key (chipNumber dog)) = false →
  DogList.status M dog =
    effectiveStatus_spec M (prop_key (chipNumber dog))
      (present_flag (present dog)) ∧
  DogDetails.currentStatus M dog = DogList.status M dog ∧
  (boolean_or_missing (present dog) →
     DogDetails.status M dog = DogList.status M dog).
Proof. apply status_not_inherited. Qed.

Lemma X27_status_off_inherited_keys_witness :
  DogList.status {["A1" := "absent"]} rex = "absent" ∧
  DogDetails.status ∅ fido = "absent".
Proof.
  destruct (X27_status_off_inherited_keys {["A1" := "absent"]} rex eq_refl)
    as (Hrex & _).
  destruct (X27_status_off_inherited_keys ∅ fido eq_refl) as (Hfido & _ & Hd).
  split.
  - rewrite Hrex. reflexivity.
  - rewrite (Hd I), Hfido. reflexivity.
Defined.

(** X28.  On an overlay that holds only stored statuses, for a dog whose
    chip number is not the name of an inherited property, toggling twice in
    a row restores the status the list view and the toggle handler compute
    (and the one the detail page shows, when [present] is a boolean or
    absent); with an empty or missing chip number both toggles are
    rejected and change nothing. *)
Theorem X28_toggle_twice_restores (dog : Dog) (s : store) :
  overlay_wf (changedDogs s) →
  inherited (prop_key (chipNumber dog)) = false →
  let s2 := toggleStatus (Some dog) (toggleStatus (Some dog) s) in
  DogList.status (changedDogs s2) dog = DogList.status (changedDogs s) dog ∧
  (boolean_or_missing (present dog) →
     DogDetails.status (changedDogs s2) dog =
       DogDetails.status (changedDogs s) dog) ∧
  (falsy_id (chipNumber dog) = true → changedDogs s2 = changedDogs s).
Proof.
  intros Hwf Hi s2.
  assert (DogDetails.currentStatus (changedDogs s2) dog =
          DogDetails.currentStatus (changedDogs s) dog) as Hcur.
  { apply toggle_twice_status; [|done]. intros v. apply Hwf. }
  split_and!.
  - exact Hcur.
  - intros Hb. unfold DogDetails.status.
    rewrite (truthy_boolean_or_missing _ Hb). exact Hcur.
  - intros Hid. unfold s2. rewrite !toggleStatus_changedDogs. by rewrite Hid.
Qed.

Lemma X28_toggle_twice_restores_witness :
  DogList.status
    (changedDogs (toggleStatus (Some rex) (toggleStatus (Some rex) init_store)))
    rex = "present".
Proof.
  destruct (X28_toggle_twice_restores rex init_store overlay_wf_empty eq_refl)
    as [H _].
  rewrite H. reflexivity.
Defined.

(** X29.  The visible list is the roster filtered, in order, by the
    conjunction of the name test and the status test: it is a subsequence of
    the roster, and a dog is in it exactly when it is in the roster, passes
    the name test, and the filter is "all" or equals the status the list view
    computes for it.  An empty or undefined term passes every dog; a dog
    without a name passes exactly when the term is empty or undefined. *)
Theorem X29_filteredDogs_characterised (R : list Dog) (term : option string)
    (filter : string) (M : overlay) :
  filteredDogs R term filter M =
    List.filter (λ d, name_test term d && status_test filter M d) R ∧
  sublist (filteredDogs R term filter M) R ∧
  (∀ d, d ∈ filteredDogs R term filter M ↔
        d ∈ R ∧ name_test term d = true ∧
        (filter = STATUS.ALL ∨ DogList.status M d = filter)) ∧
  (term = None ∨ term = Some "" → ∀ d, name_test term d = true) ∧
  (∀ d, name d = None →
        (name_test term d = true ↔ term = None ∨ term = Some "")).
Proof.
  assert (filteredDogs R term filter M =
          List.filter (λ d, name_test term d && status_test filter M d) R)
    as Heq by apply filter_filter_and.
  split_and!.
  - exact Heq.
  - rewrite Heq. apply filter_sublist.
  - intros d. rewrite Heq, list_elem_of_In, filter_In, andb_true_iff.
    by rewrite status_test_spec, list_elem_of_In.
  - intros Hterm%or_empty_empty d. unfold name_test. rewrite Hterm.
    apply includes_empty.
  - intros d Hname. unfold name_test. rewrite Hname.
    change (toLowerCase (or_empty None)) with "".
    by rewrite includes_in_empty, toLowerCase_empty, or_empty_empty.
Qed.

Lemma X29_filteredDogs_characterised_witness :
  fido ∈ filteredDogs roster12 (Some "ID") "absent" ∅ ∧
  name_test None rex = true.
Proof.
  destruct (X29_filteredDogs_characterised roster12 (Some "ID") "absent" ∅)
    as (_ & _ & Hmem & _).
  destruct (X29_filteredDogs_characterised roster12 None "absent" ∅)
    as (_ & _ & _ & Hempty & _).
  split.
  - apply Hmem. split_and!.
    + apply list_elem_of_further, list_elem_of_here.
    + reflexivity.
    + right. reflexivity.
  - apply Hempty. by left.
Defined.

(** ** The debouncer *)

Section debounce_more.
Context (delay : Z).

Lemma fire_due_value (t : Z) (s : debounce) : value (fire_due t s) = value s.
Proof.
  unfold fire_due. destruct (handler s) as [[due w]|]; [|done].
  by destruct (due <=? t)%Z.
Qed.

Lemma fire_due_late (t t' : Z) (v : option string) (s : debounce) :
  handler s = run_effect delay t v → (t + delay ≤ t')%Z →
  emitted (fire_due t' s) = (emitted s ++ emission v)%list ∧
  handler (fire_due t' s) = None.
Proof.
  intros Hh Ht. unfold fire_due. rewrite Hh.
  destruct v as [x|]; cbn [run_effect emission].
  - destruct (Z.leb_spec (t + delay) t'); [done|lia].
  - by rewrite app_nil_r.
Qed.

Lemma spaced_all_emitted (evs : list (Z * option string)) (t : Z)
    (v : option string) (s : debounce) (T : Z) :
  value s = v → handler s = run_effect delay t v →
  spaced delay t v evs = true →
  ((default (t, v) (last evs)).1 + delay ≤ T)%Z →
  emitted (fire_due T (renders delay evs s)) =
    (emitted s ++ flat_map emission (v :: evs.*2))%list.
Proof.
  revert t v s. induction evs as [|[t' v'] evs IH]; intros t v s Hv Hh Hsp HT.
  - cbn in *. rewrite app_nil_r. by apply (fire_due_late t T v s).
  - cbn [spaced] in Hsp. rewrite !andb_true_iff in Hsp.
    destruct Hsp as [[Hle Hne] Hsp].
    apply Z.leb_le in Hle. apply negb_true_iff, bool_decide_eq_false in Hne.
    assert (v' ≠ value s) as Hchg by (by rewrite Hv).
    destruct (render_change delay t' v' s Hchg) as (Hv1 & Hh1 & He1 & _).
    rewrite (proj1 (fire_due_late t t' v s Hh Hle)) in He1.
    change (renders delay ((t', v') :: evs) s)
      with (renders delay evs (render delay t' v' s)).
    rewrite last_cons in HT.
    rewrite (IH t' v' (render delay t' v' s) Hv1 Hh1 Hsp).
    + rewrite He1. cbn [fmap list_fmap flat_map snd].
      by rewrite <- !app_assoc.
    + by destruct (last evs).
Qed.

Lemma render_same (t : Z) (v : option string) (s : debounce) :
  v = value s → render delay t v s = fire_due t s.
Proof.
  intros Hv. unfold render. rewrite fire_due_value.
  by destruct (decide (v = value s)).
Qed.

Lemma fire_due_fire_due (t T : Z) (s : debounce) :
  (t ≤ T)%Z → fire_due T (fire_due t s) = fire_due T s.
Proof.
  intros Ht. unfold fire_due at 2 3.
  destruct (handler s) as [[due w]|] eqn:Hh.
  - destruct (Z.leb_spec due t).
    + destruct (Z.leb_spec due T); [|lia]. done.
    + unfold fire_due. by rewrite Hh.
  - unfold fire_due. by rewrite Hh.
Qed.

Lemma in_step_fire_due (t : Z) (s : debounce) :
  in_step s → in_step (fire_due t s).
Proof.
  unfold in_step, fire_due.
  destruct (handler s) as [[due w]|] eqn:Hh; [|by rewrite Hh].
  destruct (due <=? t)%Z; [|by rewrite Hh].
  cbn. by right.
Qed.

Lemma in_step_render (t : Z) (v : option string) (s : debounce) :
  in_step s → in_step (render delay t v s).
Proof.
  intros Hs. apply (in_step_fire_due t) in Hs. unfold render.
  destruct (decide _); [done|].
  unfold in_step. cbn [handler value debouncedValue].
  destruct v; cbn; [done|by left].
Qed.

Lemma in_step_renders (evs : list (Z * option string)) (s : debounce) :
  in_step s → in_step (renders delay evs s).
Proof.
  revert s. induction evs as [|[t v] evs IH]; intros s Hs; [done|].
  apply (IH (render delay t v s)). by apply in_step_render.
Qed.

Lemma renders_value (evs : list (Z * option string)) (s : debounce) (t : Z) :
  value (renders delay evs s) = (default (t, value s) (last evs)).2.
Proof.
  revert s t. induction evs as [|[t v] evs IH]; intros s t'; [done|].
  change (renders delay ((t, v) :: evs) s)
    with (renders delay evs (render delay t v s)).
  rewrite (IH _ t), last_cons.
  assert (value (render delay t v s) = v) as ->.
  { unfold render. destruct (decide _) as [->|]; [|done].
    by rewrite fire_due_value. }
  by destruct (last evs).
Qed.

Lemma in_step_mount (t : Z) (v : option string) : in_step (mount delay t v).
Proof. unfold in_step, mount. destruct v; cbn; [done|by left]. Qed.

End debounce_more.

(** X21.  Typed slowly, nothing is lost: when an update to [v1] changes the
    value and every later update changes it again at least [delay] after the
    one before, then once [delay] has passed since the last update the
    timers have emitted, in order, every value of the run that is not
    [undefined]. *)
Theorem X21_slow_updates_all_emitted (delay : Z) (s : debounce) (t1 : Z)
    (v1 : option string) (rest : list (Z * option string)) (T : Z) :
  v1 ≠ value s →
  spaced delay t1 v1 rest = true →
  ((default (t1, v1) (last rest)).1 + delay ≤ T)%Z →
  let s1 := render delay t1 v1 s in
  emitted (fire_due T (renders delay rest s1)) =
    (emitted s1 ++ flat_map emission (v1 :: rest.*2))%list.
Proof.
  intros Hchg Hsp HT s1.
  destruct (render_change delay t1 v1 s Hchg) as (Hv1 & Hh1 & _).
  by apply (spaced_all_emitted delay rest t1 v1 s1 T).
Qed.

Lemma X21_slow_updates_all_emitted_witness :
  emitted
    (fire_due 1290
       (renders 300 [(300%Z, Some "fi"); (650%Z, None); (990%Z, Some "fid")]
          (render 300 0 (Some "f") (mount 300 (-1000) (Some "")))))
  = [Some ""; Some "f"; Some "fi"; Some "fid"].
Proof.
  rewrite (X21_slow_updates_all_emitted 300 (mount 300 (-1000) (Some "")) 0
             (Some "f") [(300%Z, Some "fi"); (650%Z, None); (990%Z, Some "fid")]
             1290 ltac:(discriminate) eq_refl ltac:(cbn; lia)).
  reflexivity.
Defined.

(** X22.  An update to [undefined] cancels without replacing: if it arrives
    while a timer is still pending, that timer's value is never emitted, no
    new timer is set, and the debounced value stays what it was, however
    long one waits. *)
Theorem X22_undefined_cancels (delay : Z) (s : debounce) (t T : Z) :
  value s ≠ None →
  (∀ due w, handler s = Some (due, w) → (t < due)%Z) →
  let sT := fire_due T (render delay t None s) in
  value sT = None ∧ handler sT = None ∧
  emitted sT = emitted s ∧ debouncedValue sT = debouncedValue s.
Proof.
  intros Hv Hpending sT.
  assert (fire_due t s = s) as Hquiet.
  { unfold fire_due. destruct (handler s) as [[due w]|] eqn:Hh; [|done].
    specialize (Hpending due w eq_refl).
    destruct (Z.leb_spec due t); [lia|done]. }
  assert (render delay t None s =
          {| value := None; debouncedValue := debouncedValue s;
             handler := None; emitted := emitted s |}) as Hr.
  { unfold render. rewrite Hquiet. destruct (decide (None = value s)); [|done].
    congruence. }
  unfold sT. rewrite Hr. done.
Qed.

Lemma X22_undefined_cancels_witness :
  emitted (fire_due 5000 (render 300 100 None (mount 300 0 (Some "rex")))) = [] ∧
  debouncedValue (fire_due 5000 (render 300 100 None (mount 300 0 (Some "rex"))))
    = Some "rex".
Proof.
  destruct (X22_undefined_cancels 300 (mount 300 0 (Some "rex")) 100 5000)
    as (_ & _ & He & Hd).
  - discriminate.
  - intros due w [= <- _]. lia.
  - split; [exact He|exact Hd].
Defined.

(** X23.  Re-renders that pass the same value do nothing to the debouncer:
    they neither reset nor cancel the pending timer, so by any time [T] after
    them the hook is in the state it would have reached without them. *)
Theorem X23_same_value_rerenders (delay : Z) (s : debounce)
    (evs : list (Z * option string)) (T : Z) :
  Forall (λ ev, ev.2 = value s ∧ (ev.1 ≤ T)%Z) evs →
  fire_due T (renders delay evs s) = fire_due T s.
Proof.
  revert s. induction evs as [|[t v] evs IH]; intros s Hall; [done|].
  apply Forall_cons in Hall as [[Hv Ht] Hall]. cbn [fst snd] in Hv, Ht.
  change (renders delay ((t, v) :: evs) s)
    with (renders delay evs (render delay t v s)).
  rewrite (render_same delay t v s Hv), IH.
  - by apply fire_due_fire_due.
  - eapply Forall_impl; [exact Hall|]. intros ev [? ?].
    by rewrite fire_due_value.
Qed.

Lemma X23_same_value_rerenders_witness :
  emitted
    (fire_due 300
       (renders 300 [(100%Z, Some "rex"); (250%Z, Some "rex")]
          (render 300 0 (Some "rex") (mount 300 (-1000) (Some "")))))
  = [Some ""; Some "rex"].
Proof.
  rewrite (X23_same_value_rerenders 300
             (render 300 0 (Some "rex") (mount 300 (-1000) (Some "")))
             [(100%Z, Some "rex"); (250%Z, Some "rex")] 300).
  - reflexivity.
  - repeat constructor; cbn; lia.
Defined.

Lemma known_values_fire_due (vals : list (option string)) (t : Z)
    (s : debounce) :
  known_values vals s → known_values vals (fire_due t s).
Proof.
  intros Hs. pose proof Hs as (Hd & Hh & He). unfold fire_due.
  destruct (handler s) as [[due w]|] eqn:E; [|exact Hs].
  destruct (due <=? t)%Z; [|exact Hs].
  split_and!; cbn.
  - by apply (Hh due w).
  - done.
  - intros w' [?|Hw]%elem_of_app; [by apply He|].
    apply list_elem_of_singleton in Hw as ->. by apply (Hh due w).
Qed.

Lemma known_values_mono (vals vals' : list (option string)) (s : debounce) :
  vals ⊆ vals' → known_values vals s → known_values vals' s.
Proof.
  intros Hsub (Hd & Hh & He). split_and!.
  - by apply Hsub.
  - intros due w Hw. by apply Hsub, (Hh due w).
  - intros w Hw. by apply Hsub, He.
Qed.

Lemma known_values_render (delay : Z) (vals : list (option string)) (t : Z)
    (v : option string) (s : debounce) :
  known_values vals s → known_values (vals ++ [v])%list (render delay t v s).
Proof.
  intros Hs%(known_values_fire_due vals t). unfold render.
  destruct (decide _).
  - eapply known_values_mono; [|exact Hs]. set_solver.
  - destruct Hs as (Hd & Hh & He). split_and!; cbn.
    + set_solver.
    + intros due w Hw. destruct v as [x|]; cbn in Hw; [|done].
      injection Hw as _ <-. set_solver.
    + intros w Hw. apply He in Hw. set_solver.
Qed.

Lemma known_values_renders (delay : Z) (evs : list (Z * option string))
    (vals : list (option string)) (s : debounce) :
  known_values vals s →
  known_values (vals ++ evs.*2)%list (renders delay evs s).
Proof.
  revert vals s. induction evs as [|[t v] evs IH]; intros vals s Hs.
  - cbn. by rewrite app_nil_r.
  - change (renders delay ((t, v) :: evs) s)
      with (renders delay evs (render delay t v s)).
    change (((t, v) :: evs).*2) with (v :: evs.*2).
    replace (vals ++ v :: evs.*2)%list with ((vals ++ [v]) ++ evs.*2)%list
      by (by rewrite <- app_assoc).
    by apply IH, known_values_render.
Qed.

Lemma known_values_mount (delay t : Z) (v : option string) :
  known_values [v] (mount delay t v).
Proof.
  split_and!; cbn.
  - set_solver.
  - intros due w Hw. destruct v; cbn in Hw; [|done].
    injection Hw as _ <-. set_solver.
  - intros w Hw. by apply elem_of_nil in Hw.
Qed.

(** X24.  The debounced value is never made up: after mounting with [v0] and
    any renders, the debounced value and every value a timer emitted are
    among [v0] and the values the hook was rendered with. *)
Theorem X24_debounced_value_was_input (delay t0 : Z) (v0 : option string)
    (evs : list (Z * option string)) (T : Z) :
  let sT := fire_due T (renders delay evs (mount delay t0 v0)) in
  debouncedValue sT ∈ v0 :: evs.*2 ∧
  (∀ w, w ∈ emitted sT → w ∈ v0 :: evs.*2).
Proof.
  intros sT.
  destruct (known_values_fire_due _ T _
              (known_values_renders delay evs [v0] _
                 (known_values_mount delay t0 v0))) as (Hd & _ & He).
  split; [exact Hd|exact He].
Qed.

(** X25.  The debounced value catches up: in a hook that was mounted and
    rendered any number of times, once the pending timer (if any) is due, the
    debounced value equals the last value rendered, unless that value is
    [undefined]. *)
Theorem X25_debounced_value_catches_up (delay t0 : Z) (v0 : option string)
    (evs : list (Z * option string)) (T : Z) :
  let s := renders delay evs (mount delay t0 v0) in
  (∀ due w, handler s = Some (due, w) → (due ≤ T)%Z) →
  value s ≠ None →
  debouncedValue (fire_due T s) = value s ∧
  value s = (default (t0, v0) (last evs)).2.
Proof.
  intros s Hdue Hdef.
  assert (in_step s) as Hs.
  { apply in_step_renders, in_step_mount. }
  split.
  - unfold in_step in Hs. unfold fire_due.
    destruct (handler s) as [[due w]|] eqn:Hh.
    + specialize (Hdue due w eq_refl).
      destruct (Z.leb_spec due T); [done|lia].
    + by destruct Hs.
  - exact (renders_value delay evs (mount delay t0 v0) t0).
Qed.

Lemma X25_debounced_value_catches_up_witness :
  debouncedValue
    (fire_due 500
       (renders 300 [(100%Z, Some "re"); (200%Z, Some "rex")]
          (mount 300 0 (Some ""))))
  = Some "rex".
Proof.
  destruct (X25_debounced_value_catches_up 300 0 (Some "")
              [(100%Z, Some "re"); (200%Z, Some "rex")] 500) as [H _].
  - intros due w Hh. vm_compute in Hh. injection Hh as <- _. lia.
  - discriminate.
  - rewrite H. reflexivity.
Defined.
